(** * Chain synchronisation engine: gas pool, trie node model, downloader

    A shallow embedding of the parts of the repository that the
    specification talks about:

    - [GasPool]     : package core, type GasPool
    - [rlp], [Trie] : trie/node.go, the node variants, their cache flags
                      and the decoder, over the splitter of package rlp
    - [Downloader]  : package downloader: synchronise, syncWithPeer,
                      findAncestor, processHeaders, deliver

    Go machine integers are integers of [Z] with the wrap-around written
    out; byte slices are [list byte]; a Go [error] result is an [option]
    (nil is [None]) or the error branch of a sum. Code that waits on
    channels is a function of the events it receives. *)

From Stdlib Require Import String.
From Stdlib Require Import ZArith List Bool Lia Sorted.
From Stdlib Require Import Strings.Byte.
Import ListNotations.
Open Scope Z_scope.
#[global] Set Warnings "-register-all".

(** ** Machine integers *)

Module MachineInt.

Definition uint16 (x : Z) : Z := x mod 2 ^ 16.
Definition uint64 (x : Z) : Z := x mod 2 ^ 64.
(** Two's complement reinterpretation of the low 64 bits, as Go's
    conversion [int64(x)] does for an unsigned operand. *)
Definition int64 (x : Z) : Z := (x + 2 ^ 63) mod 2 ^ 64 - 2 ^ 63.

Definition in_uint16 (x : Z) : Prop := 0 <= x < 2 ^ 16.
Definition in_uint64 (x : Z) : Prop := 0 <= x < 2 ^ 64.
Definition MaxUint64 : Z := 2 ^ 64 - 1.

Lemma uint64_small x : in_uint64 x -> uint64 x = x.
Proof. unfold in_uint64, uint64. intros H. apply Z.mod_small. exact H. Qed.

Lemma uint16_small x : in_uint16 x -> uint16 x = x.
Proof. unfold in_uint16, uint16. intros H. apply Z.mod_small. exact H. Qed.

Lemma uint64_range x : in_uint64 (uint64 x).
Proof. unfold in_uint64, uint64. apply Z.mod_pos_bound. reflexivity. Qed.

Lemma uint16_range x : in_uint16 (uint16 x).
Proof. unfold in_uint16, uint16. apply Z.mod_pos_bound. reflexivity. Qed.

Lemma int64_small x : - 2 ^ 63 <= x < 2 ^ 63 -> int64 x = x.
Proof.
  intros H. unfold int64. rewrite Z.mod_small; lia.
Qed.

End MachineInt.
Import MachineInt.

(** ** core: the gas pool *)

Module GasPool.

(** [type GasPool uint64]: the pool is its remaining gas. *)
Definition GasPool : Type := Z.

Inductive error : Type := ErrGasLimitReached.

(** [AddGas] panics when the sum leaves uint64; [None] is the panic. *)
Definition AddGas (gp : GasPool) (amount : Z) : option GasPool :=
  if MaxUint64 - amount <? gp then None else Some (uint64 (gp + amount)).

(** [SubGas] mutates the receiver; the new pool is returned next to the
    error value. *)
Definition SubGas (gp : GasPool) (amount : Z) : option error * GasPool :=
  if gp <? amount then (Some ErrGasLimitReached, gp)
  else (None, uint64 (gp - amount)).

Definition Gas (gp : GasPool) : Z := gp.

(** C10. For every pool [gp] and every [amount] (both uint64), [SubGas]
    returns the gas-limit-reached error and leaves the pool as it was when
    the pool holds less than [amount]; otherwise it returns nil and the
    pool is smaller by exactly [amount]. *)
Theorem SubGas_spec (gp amount : Z) :
  in_uint64 gp -> in_uint64 amount ->
  (gp < amount -> SubGas gp amount = (Some ErrGasLimitReached, gp)) /\
  (amount <= gp ->
     SubGas gp amount = (None, gp - amount) /\
     Gas (snd (SubGas gp amount)) + amount = Gas gp).
Proof.
  intros Hgp Ham. unfold SubGas, Gas. split; intros Hcmp.
  - apply Z.ltb_lt in Hcmp. rewrite Hcmp. reflexivity.
  - assert (Hge : (gp <? amount) = false) by (apply Z.ltb_ge; exact Hcmp).
    rewrite Hge. cbn [snd].
    rewrite uint64_small by (unfold in_uint64 in *; lia).
    split; [reflexivity | lia].
Qed.

Lemma SubGas_spec_witness :
  SubGas 21000 30000 = (Some ErrGasLimitReached, 21000) /\
  SubGas 30000 21000 = (None, 9000).
Proof.
  split.
  - apply (SubGas_spec 21000 30000); unfold in_uint64; lia.
  - apply (SubGas_spec 30000 21000); unfold in_uint64; lia.
Defined.

(** *** Adding and taking gas *)

(** [AddGas] never wraps around: it panics exactly when the sum leaves
    uint64, and otherwise the pool is larger by exactly [amount]. *)
Theorem AddGas_exact (gp amount : Z) :
  in_uint64 gp -> in_uint64 amount ->
  (MaxUint64 < gp + amount -> AddGas gp amount = None) /\
  (gp + amount <= MaxUint64 -> AddGas gp amount = Some (gp + amount)).
Proof.
  intros Hgp Ham. unfold AddGas, in_uint64, MaxUint64 in *. split; intros H.
  - assert (E : (2 ^ 64 - 1 - amount <? gp) = true) by (apply Z.ltb_lt; lia).
    rewrite E. reflexivity.
  - assert (E : (2 ^ 64 - 1 - amount <? gp) = false) by (apply Z.ltb_ge; lia).
    rewrite E. rewrite uint64_small by (unfold in_uint64; lia). reflexivity.
Qed.

Lemma AddGas_exact_witness :
  AddGas (2 ^ 64 - 1) 1 = None /\ AddGas 9000 21000 = Some 30000.
Proof.
  split.
  - apply (AddGas_exact (2 ^ 64 - 1) 1); unfold in_uint64, MaxUint64; lia.
  - apply (AddGas_exact 9000 21000); unfold in_uint64, MaxUint64; lia.
Defined.

(** Gas that was taken from the pool can always be given back: after a
    [SubGas] that succeeded, [AddGas] of the same amount does not panic
    and restores the pool; and gas that was added can be taken again. *)
Theorem SubGas_AddGas (gp amount : Z) :
  in_uint64 gp -> in_uint64 amount ->
  (fst (SubGas gp amount) = None -> AddGas (snd (SubGas gp amount)) amount = Some gp) /\
  (forall gp', AddGas gp amount = Some gp' -> SubGas gp' amount = (None, gp)).
Proof.
  intros Hgp Ham. unfold in_uint64 in *. split.
  - unfold SubGas. destruct (gp <? amount) eqn:E; cbn [fst snd]; [discriminate|].
    intros _. apply Z.ltb_ge in E.
    rewrite uint64_small by (unfold in_uint64; lia).
    unfold AddGas, MaxUint64.
    assert (E2 : (2 ^ 64 - 1 - amount <? gp - amount) = false) by (apply Z.ltb_ge; lia).
    rewrite E2. rewrite uint64_small by (unfold in_uint64; lia). f_equal. lia.
  - intros gp'. unfold AddGas, MaxUint64.
    destruct (2 ^ 64 - 1 - amount <? gp) eqn:E; [discriminate|].
    apply Z.ltb_ge in E. rewrite uint64_small by (unfold in_uint64; lia).
    intros H. injection H as <-. unfold SubGas.
    assert (E2 : (gp + amount <? amount) = false) by (apply Z.ltb_ge; lia).
    rewrite E2. rewrite uint64_small by (unfold in_uint64; lia). f_equal. lia.
Qed.

Lemma SubGas_AddGas_witness :
  AddGas (snd (SubGas 30000 21000)) 21000 = Some 30000.
Proof.
  apply (SubGas_AddGas 30000 21000); [unfold in_uint64; lia | unfold in_uint64; lia |].
  reflexivity.
Defined.

End GasPool.

(** ** rlp: the low-level splitter used by the trie decoder *)

Module rlp.

(** Modelled from the spec: the kinds of [split(buf) -> (Kind, payload,
    rest)] (package rlp is not among the sources); the decoder of the trie
    tells [List] from [String], a single byte below 0x80 is its own kind. *)
Inductive Kind : Type := Byte | String | List.

(** Modelled from the spec: the failures of the splitter, "truncation,
    wrong kind, or oversized length" and "non-canonical forms" (package rlp
    is not among the sources); the specification reports all of them as
    [InvalidEncoding]. *)
Inductive error : Type :=
| ErrUnexpectedEOF      (* truncation: the buffer ends inside the tag *)
| ErrCanonSize          (* non-canonical size or single byte *)
| ErrValueTooLarge      (* the announced content leaves the buffer *)
| ErrExpectedString     (* wrong kind *)
| ErrExpectedList.      (* wrong kind *)

Definition byteval (b : byte) : N := Byte.to_N b.

(** Big-endian value of a size field. *)
Fixpoint readBE (bs : list byte) (acc : N) : N :=
  match bs with
  | [] => acc
  | b :: r => readBE r (acc * 256 + byteval b)%N
  end.

(** Modelled from the spec: the size field of a long string or list
    (package rlp is not among the sources): [slen] bytes, big-endian, no
    leading zero byte and not below 56, "longer strings encode their
    length's length" and "the decoder MUST reject non-canonical forms". *)
Definition readSize (b : list byte) (slen : nat) : N + error :=
  if (length b <? slen)%nat then inr ErrUnexpectedEOF
  else
    let s := readBE (firstn slen b) 0%N in
    let lead0 := match b with b0 :: _ => (byteval b0 =? 0)%N | [] => true end in
    if (s <? 56)%N || lead0 then inr ErrCanonSize else inl s.

(** Modelled from the spec: the tag reader behind [Split] (package rlp is
    not among the sources). "Single-byte values <0x80 encode as themselves;
    short strings (<=55 bytes) get a 1-byte prefix; longer strings encode
    their length's length; lists use the mirror tag range"; it fails "on
    truncation ... or oversized length". The result is the kind, the size
    of the tag and the size of the content. *)
Definition readKind (buf : list byte) : (Kind * nat * N) + error :=
  match buf with
  | [] => inr ErrUnexpectedEOF
  | b :: tl =>
    let v := byteval b in
    let r : (Kind * nat * N) + error :=
      if (v <? 128)%N then inl (Byte, 0%nat, 1%N)
      else if (v <? 184)%N then
        let cs := (v - 128)%N in
        let single := match tl with b1 :: _ => (byteval b1 <? 128)%N | [] => false end in
        if (cs =? 1)%N && single then inr ErrCanonSize
        else inl (String, 1%nat, cs)
      else if (v <? 192)%N then
        match readSize tl (N.to_nat (v - 183)) with
        | inl s => inl (String, S (N.to_nat (v - 183)), s)
        | inr e => inr e
        end
      else if (v <? 248)%N then inl (List, 1%nat, (v - 192)%N)
      else
        match readSize tl (N.to_nat (v - 247)) with
        | inl s => inl (List, S (N.to_nat (v - 247)), s)
        | inr e => inr e
        end in
    match r with
    | inr e => inr e
    | inl (k, ts, cs) =>
      if (N.of_nat (length buf - ts) <? cs)%N then inr ErrValueTooLarge
      else inl (k, ts, cs)
    end
  end.

(** Modelled from the spec: [split(buf) -> (Kind, payload, rest)] (package
    rlp is not among the sources). *)
Definition Split (b : list byte) : (Kind * list byte * list byte) + error :=
  match readKind b with
  | inr e => inr e
  | inl (k, ts, cs) =>
    let n := N.to_nat cs in
    inl (k, firstn n (skipn ts b), skipn (ts + n) b)
  end.

(** Modelled from the spec: [Split] restricted to strings, "wrong kind"
    being a failure (package rlp is not among the sources). *)
Definition SplitString (b : list byte) : (list byte * list byte) + error :=
  match Split b with
  | inr e => inr e
  | inl (List, _, _) => inr ErrExpectedString
  | inl (_, content, rest) => inl (content, rest)
  end.

(** Modelled from the spec: [Split] restricted to lists (package rlp is not
    among the sources). *)
Definition SplitList (b : list byte) : (list byte * list byte) + error :=
  match Split b with
  | inr e => inr e
  | inl (List, content, rest) => inl (content, rest)
  | inl (_, _, _) => inr ErrExpectedList
  end.

(** Modelled from the spec: the number of encoded values in a buffer
    (package rlp is not among the sources); the decoder "chooses Short vs
    Branch by list length". Every value takes at least one byte, so the
    length of the buffer is enough fuel. *)
Fixpoint CountValues_loop (fuel : nat) (b : list byte) (i : nat) : nat + error :=
  match b with
  | [] => inl i
  | _ :: _ =>
    match fuel with
    | O => inl i
    | S fuel' =>
      match readKind b with
      | inr e => inr e
      | inl (_, ts, cs) => CountValues_loop fuel' (skipn (ts + N.to_nat cs) b) (S i)
      end
    end
  end.

(** Modelled from the spec: [CountValues] on a whole buffer (package rlp
    is not among the sources). *)
Definition CountValues (b : list byte) : nat + error :=
  CountValues_loop (length b) b 0%nat.

End rlp.

(** ** trie: node model and decoder (trie/node.go) *)

Module Trie.

(** [hashNode] and [valueNode] are byte slices; nil is the empty list. *)
Definition hashNode_t : Type := list byte.

(** [nodeFlag]: caching-related metadata of a node. *)
Record nodeFlag : Type := mkFlag {
  hash : hashNode_t;   (* cached hash of the node (may be nil) *)
  gen : Z;             (* cache generation counter, uint16 *)
  dirty : bool         (* whether the node has changes to be written *)
}.

(** The four node variants. A value of the Go interface type [node] may
    be nil, so a child is an [option node]. *)
Inductive node : Type :=
| fullNode (Children : list (option node)) (flags : nodeFlag)
| shortNode (Key : list byte) (Val : option node) (flags : nodeFlag)
| hashNode (h : list byte)
| valueNode (v : list byte).

Definition nodeFlag_canUnload (n : nodeFlag) (cachegen cachelimit : Z) : bool :=
  negb (dirty n) && (cachelimit <=? uint16 (cachegen - gen n)).

(** The method [canUnload] of the four variants. *)
Definition canUnload (n : node) (cachegen cachelimit : Z) : bool :=
  match n with
  | fullNode _ flags => nodeFlag_canUnload flags cachegen cachelimit
  | shortNode _ _ flags => nodeFlag_canUnload flags cachegen cachelimit
  | hashNode _ => false
  | valueNode _ => false
  end.

Inductive error : Type :=
| ErrUnexpectedEOF                      (* io.ErrUnexpectedEOF *)
| ErrRlp (e : rlp.error)                (* an rlp error handed on *)
| ErrDecode (e : rlp.error)             (* decode error: e *)
| ErrListElements (c : nat)             (* invalid number of list elements: c *)
| ErrValueNode (e : rlp.error)          (* invalid value node: e *)
| ErrOversized (size : nat)             (* oversized embedded node (size is .. bytes, want size < 32) *)
| ErrStringSize (len : nat)             (* invalid RLP string size .. (want 0 or 32) *)
| decodeError (what : error) (stack : list string).

(** [wrapError]: nil stays nil, a [decodeError] gets the context appended
    to its stack, any other error is wrapped. *)
Definition wrapError (err : option error) (ctx : string) : option error :=
  match err with
  | None => None
  | Some (decodeError what stack) => Some (decodeError what (stack ++ [ctx]))
  | Some e => Some (decodeError e [ctx])
  end.

Definition hashLen : nat := 32.

Definition nibble (n : N) : byte :=
  match Byte.of_N n with Some b => b | None => x00 end.

(** Modelled from the spec: the key expansion of trie/encoding.go, which
    is not among the sources. "First nibble encodes {is_leaf, odd_length};
    remaining nibbles are packed two per byte. Decoder expands to a nibble
    array, appending a terminator nibble 0x10 if leaf." *)
Definition keybytesToNibbles (str : list byte) : list byte :=
  flat_map (fun b => [nibble (rlp.byteval b / 16); nibble (rlp.byteval b mod 16)]) str.

(** Modelled from the spec: the expansion of a compact key to its
    nibbles (trie/encoding.go is not among the sources): the flag nibble
    and, for an even length, the padding nibble are dropped, the
    terminator is appended to a leaf key. The empty compact key, on which
    the specification is silent, expands to the empty key. *)
Definition compactToHex (compact : list byte) : list byte :=
  match keybytesToNibbles compact with
  | [] => []
  | (b0 :: _) as base =>
    let f := rlp.byteval b0 in
    let base' := if (2 <=? f)%N then base ++ [x10] else base in
    let chop := (2 - N.to_nat (N.land f 1))%nat in
    skipn chop base'
  end.

(** Modelled from the spec: a key is a leaf key when it ends in the
    terminator nibble 0x10 (trie/encoding.go is not among the sources). *)
Definition hasTerm (s : list byte) : bool :=
  match rev s with
  | b :: _ => (rlp.byteval b =? 16)%N
  | [] => false
  end.

(** The context string of child [i] of a full node: fmt.Sprintf of the
    index between brackets. *)
Definition indexCtx (i : nat) : string :=
  nth i ["[0]"; "[1]"; "[2]"; "[3]"; "[4]"; "[5]"; "[6]"; "[7]"; "[8]"; "[9]";
         "[10]"; "[11]"; "[12]"; "[13]"; "[14]"; "[15]"]%string "[]"%string.

Definition padChildren (cs : list (option node)) : list (option node) :=
  cs ++ repeat None (17 - length cs).

(** [decodeNode], [decodeShort], [decodeFull] and [decodeRef] call each
    other. Every call of [decodeNode] from [decodeRef] is on a buffer that
    lost at least the tag of the enclosing list, so the recursion is on a
    fuel that [decodeNode] is given as the length of its buffer. The
    results are Go's tuples: the node (nil is [None]), the rest of the
    buffer where there is one, and the error (nil is [None]). *)
Section Decoder.

Variable decodeNode_rec : list byte -> list byte -> Z -> option node * option error.

Definition decodeRef_body (buf : list byte) (cachegen : Z)
  : option node * list byte * option error :=
  match rlp.Split buf with
  | inr e => (None, buf, Some (ErrRlp e))
  | inl (kind, val, rest) =>
    match kind with
    | rlp.List =>
      (* 'embedded' node reference. The encoding must be smaller
         than a hash in order to be valid. *)
      let size := (length buf - length rest)%nat in
      if (hashLen <? size)%nat then (None, buf, Some (ErrOversized size))
      else
        let '(n, err) := decodeNode_rec [] buf cachegen in
        (n, rest, err)
    | rlp.String =>
      if (length val =? 0)%nat then (None, rest, None)
      else if (length val =? 32)%nat then (Some (hashNode val), rest, None)
      else (None, [], Some (ErrStringSize (length val)))
    | rlp.Byte => (None, [], Some (ErrStringSize (length val)))
    end
  end.

Definition decodeShort_body (hash : list byte) (elems : list byte) (cachegen : Z)
  : option node * option error :=
  match rlp.SplitString elems with
  | inr e => (None, Some (ErrRlp e))
  | inl (kbuf, rest) =>
    let flag := mkFlag hash cachegen false in
    let key := compactToHex kbuf in
    if hasTerm key then
      match rlp.SplitString rest with
      | inr e => (None, Some (ErrValueNode e))
      | inl (val, _) => (Some (shortNode key (Some (valueNode val)) flag), None)
      end
    else
      let '(r, _, err) := decodeRef_body rest cachegen in
      match err with
      | Some _ => (None, wrapError err "val")
      | None => (Some (shortNode key r flag), None)
      end
  end.

(** The loop of [decodeFull] over the first 16 children; [cs] holds the
    children decoded so far, [todo] counts the ones still to decode. *)
Fixpoint decodeFull_loop (todo : nat) (i : nat) (cs : list (option node))
    (elems : list byte) (cachegen : Z)
  : list (option node) * list byte * option error :=
  match todo with
  | O => (cs, elems, None)
  | S todo' =>
    let '(cld, rest, err) := decodeRef_body elems cachegen in
    match err with
    | Some _ => (cs, elems, wrapError err (indexCtx i))
    | None => decodeFull_loop todo' (S i) (cs ++ [cld]) rest cachegen
    end
  end.

Definition decodeFull_body (hash : list byte) (elems : list byte) (cachegen : Z)
  : option node * option error :=
  let flags := mkFlag hash cachegen false in
  let '(cs, elems', err) := decodeFull_loop 16 0 [] elems cachegen in
  match err with
  | Some _ => (Some (fullNode (padChildren cs) flags), err)
  | None =>
    match rlp.SplitString elems' with
    | inr e => (Some (fullNode (padChildren cs) flags), Some (ErrRlp e))
    | inl (val, _) =>
      if (0 <? length val)%nat
      then (Some (fullNode (cs ++ [Some (valueNode val)]) flags), None)
      else (Some (fullNode (padChildren cs) flags), None)
    end
  end.

Definition decodeNode_body (hash buf : list byte) (cachegen : Z)
  : option node * option error :=
  if (length buf =? 0)%nat then (None, Some ErrUnexpectedEOF)
  else
    match rlp.SplitList buf with
    | inr e => (None, Some (ErrDecode e))
    | inl (elems, _) =>
      match rlp.CountValues elems with
      | inl 2%nat =>
        let '(n, err) := decodeShort_body hash elems cachegen in
        (n, wrapError err "short")
      | inl 17%nat =>
        let '(n, err) := decodeFull_body hash elems cachegen in
        (n, wrapError err "full")
      | inl c => (None, Some (ErrListElements c))
      | inr _ => (None, Some (ErrListElements 0))
      end
    end.

End Decoder.

Fixpoint decodeNode_fuel (fuel : nat) (hash buf : list byte) (cachegen : Z)
  : option node * option error :=
  match fuel with
  | O => (None, Some ErrUnexpectedEOF)
  | S fuel' => decodeNode_body (decodeNode_fuel fuel') hash buf cachegen
  end.

Definition decodeNode (hash buf : list byte) (cachegen : Z) : option node * option error :=
  decodeNode_fuel (S (length buf)) hash buf cachegen.

Definition decodeRef (buf : list byte) (cachegen : Z)
  : option node * list byte * option error :=
  decodeRef_body (decodeNode_fuel (length buf)) buf cachegen.

Definition decodeShort (hash elems : list byte) (cachegen : Z) : option node * option error :=
  decodeShort_body (decodeNode_fuel (length elems)) hash elems cachegen.

Definition decodeFull (hash elems : list byte) (cachegen : Z) : option node * option error :=
  decodeFull_body (decodeNode_fuel (length elems)) hash elems cachegen.

(** *** Cache eviction *)

Lemma nodeFlag_canUnload_true (fl : nodeFlag) (g l : Z) :
  nodeFlag_canUnload fl g l = true <->
  dirty fl = false /\ l <= uint16 (g - gen fl).
Proof.
  unfold nodeFlag_canUnload. rewrite andb_true_iff, negb_true_iff, Z.leb_le.
  reflexivity.
Qed.

(** C7. For all generation counters [g] and cache limits [l], a fullNode
    or a shortNode can be unloaded iff its flag is not dirty and the
    uint16 difference [g - flag.gen] is at least [l]; a hashNode and a
    valueNode can never be unloaded. While the node's generation is not
    ahead of [g], the uint16 difference is the plain difference. *)
Theorem canUnload_spec (g l : Z) :
  (forall ch fl, canUnload (fullNode ch fl) g l = true <->
                 dirty fl = false /\ l <= uint16 (g - gen fl)) /\
  (forall k v fl, canUnload (shortNode k v fl) g l = true <->
                  dirty fl = false /\ l <= uint16 (g - gen fl)) /\
  (forall h, canUnload (hashNode h) g l = false) /\
  (forall v, canUnload (valueNode v) g l = false) /\
  (forall fl, in_uint16 g -> in_uint16 (gen fl) -> gen fl <= g ->
              (nodeFlag_canUnload fl g l = true <->
               dirty fl = false /\ g - gen fl >= l)).
Proof.
  split; [intros ch fl; apply nodeFlag_canUnload_true|].
  split; [intros k v fl; apply nodeFlag_canUnload_true|].
  split; [reflexivity|]. split; [reflexivity|].
  intros fl Hg Hgen Hle. rewrite nodeFlag_canUnload_true.
  rewrite uint16_small by (unfold in_uint16 in *; lia).
  split; intros [Hd Hl]; (split; [exact Hd | lia]).
Qed.

Lemma canUnload_spec_witness :
  nodeFlag_canUnload (mkFlag [] 3 false) 10 5 = true <->
  dirty (mkFlag [] 3 false) = false /\ 10 - gen (mkFlag [] 3 false) >= 5.
Proof.
  apply (canUnload_spec 10 5); cbn [gen]; unfold in_uint16; lia.
Defined.

(** *** Child references *)

(** A string reference: empty is the empty child, 32 bytes is a hash,
    every other size is refused. *)
Lemma decodeRef_string (buf val rest : list byte) (cachegen : Z) :
  rlp.Split buf = inl (rlp.String, val, rest) ->
  decodeRef buf cachegen =
    if (length val =? 0)%nat then (None, rest, None)
    else if (length val =? 32)%nat then (Some (hashNode val), rest, None)
    else (None, [], Some (ErrStringSize (length val))).
Proof.
  intros HS. unfold decodeRef, decodeRef_body. rewrite HS. reflexivity.
Qed.

Lemma decodeRef_single_byte (buf val rest : list byte) (cachegen : Z) :
  rlp.Split buf = inl (rlp.Byte, val, rest) ->
  decodeRef buf cachegen = (None, [], Some (ErrStringSize (length val))).
Proof.
  intros HS. unfold decodeRef, decodeRef_body. rewrite HS. reflexivity.
Qed.

Lemma decodeRef_split_error (buf : list byte) (e : rlp.error) (cachegen : Z) :
  rlp.Split buf = inr e ->
  decodeRef buf cachegen = (None, buf, Some (ErrRlp e)).
Proof.
  intros HS. unfold decodeRef, decodeRef_body. rewrite HS. reflexivity.
Qed.

(** A list reference of more than 32 bytes is refused, one of at most 32
    bytes is decoded in place. *)
Lemma decodeRef_list (buf val rest : list byte) (cachegen : Z) :
  rlp.Split buf = inl (rlp.List, val, rest) ->
  decodeRef buf cachegen =
    if (hashLen <? length buf - length rest)%nat
    then (None, buf, Some (ErrOversized (length buf - length rest)))
    else (fst (decodeNode_fuel (length buf) [] buf cachegen), rest,
          snd (decodeNode_fuel (length buf) [] buf cachegen)).
Proof.
  intros HS. unfold decodeRef, decodeRef_body. rewrite HS.
  destruct (hashLen <? length buf - length rest)%nat; [reflexivity|].
  destruct (decodeNode_fuel (length buf) [] buf cachegen); reflexivity.
Qed.

(** The encoding of a leaf with the empty key and a value of 29 bytes: a
    list of exactly 32 bytes (tag 0xdf, compact key 0x20, string tag 0x9d
    and the value). *)
Definition leaf32 : list byte := [xdf; x20; x9d] ++ repeat x01 29.

(** C6, at the boundary. A list reference whose encoding is exactly 32
    bytes long is not refused: [decodeRef] decodes it in place and returns
    the leaf with a nil error, since its test is [size > hashLen]. Lists
    of 33 bytes and more are refused. *)
Theorem decodeRef_accepts_32_byte_list :
  length leaf32 = 32%nat /\
  rlp.Split leaf32 = inl (rlp.List, skipn 1 leaf32, []) /\
  decodeRef leaf32 0 =
    (Some (shortNode [x10] (Some (valueNode (repeat x01 29))) (mkFlag [] 0 false)),
     [], None).
Proof.
  split; [reflexivity|]. split; [reflexivity|]. vm_compute. reflexivity.
Qed.

(** A list reference of 33 bytes (the same leaf with a value of 30 bytes)
    is refused as oversized. *)
Example decodeRef_refuses_33_byte_list :
  decodeRef ([xe0; x20; x9e] ++ repeat x01 30) 0 =
    (None, [xe0; x20; x9e] ++ repeat x01 30, Some (ErrOversized 33)).
Proof. reflexivity. Qed.

(** The decoder on a leaf with the empty key and the value 0x16: the
    bytes c2 20 16. *)
Example decodeNode_leaf :
  decodeNode [] [xc2; x20; x16] 7 =
    (Some (shortNode [x10] (Some (valueNode [x16])) (mkFlag [] 7 false)), None).
Proof. reflexivity. Qed.

Example decodeRef_empty (rest : list byte) :
  decodeRef (x80 :: rest) 0 = (None, rest, None).
Proof.
  apply (decodeRef_string (x80 :: rest) [] rest 0).
  unfold rlp.Split, rlp.readKind. cbn.
  destruct (N.of_nat (length rest - 0)); reflexivity.
Qed.

Example decodeRef_hash :
  decodeRef (xa0 :: repeat xab 32 ++ [x80]) 0 =
    (Some (hashNode (repeat xab 32)), [x80], None).
Proof. reflexivity. Qed.

(** *** What the decoder returns *)

Section DecoderResults.

Variable rec : list byte -> list byte -> Z -> option node * option error.

Lemma wrapError_none (err : option error) (ctx : string) :
  wrapError err ctx = None <-> err = None.
Proof.
  destruct err as [[]|]; cbn; split; intros H; try discriminate; reflexivity.
Qed.

Lemma decodeFull_loop_length (todo i : nat) (cs : list (option node))
    (elems : list byte) (cachegen : Z) :
  let '(cs', _, err) := decodeFull_loop rec todo i cs elems cachegen in
  (length cs <= length cs' <= length cs + todo)%nat /\
  (err = None -> length cs' = (length cs + todo)%nat).
Proof.
  revert i cs elems. induction todo as [|todo IH]; intros i cs elems; cbn [decodeFull_loop].
  - split; [lia | intros _; lia].
  - destruct (decodeRef_body rec elems cachegen) as [[cld rest] [e|]].
    + split; [lia|]. intros H. apply wrapError_none in H. discriminate.
    + specialize (IH (S i) (cs ++ [cld]) rest).
      destruct (decodeFull_loop rec todo (S i) (cs ++ [cld]) rest cachegen)
        as [[cs' rest'] err'].
      rewrite length_app in IH. cbn [length] in IH.
      destruct IH as [IH1 IH2]. split; [lia|]. intros H. specialize (IH2 H). lia.
Qed.

Lemma padChildren_length (cs : list (option node)) :
  (length cs <= 17)%nat -> length (padChildren cs) = 17%nat.
Proof.
  intros H. unfold padChildren. rewrite length_app, repeat_length. lia.
Qed.

Lemma decodeFull_body_children (hash elems : list byte) (cachegen : Z) :
  exists ch,
    fst (decodeFull_body rec hash elems cachegen)
      = Some (fullNode ch (mkFlag hash cachegen false)) /\
    length ch = 17%nat.
Proof.
  unfold decodeFull_body.
  pose proof (decodeFull_loop_length 16 0 [] elems cachegen) as HL.
  destruct (decodeFull_loop rec 16 0 [] elems cachegen) as [[cs elems'] err].
  cbn [length] in HL. destruct HL as [HL1 HL2].
  destruct err as [e|].
  - eexists. split; [reflexivity|]. apply padChildren_length. lia.
  - specialize (HL2 eq_refl).
    destruct (rlp.SplitString elems') as [[val rest]|e].
    + destruct (0 <? length val)%nat.
      * eexists. split; [reflexivity|]. rewrite length_app. cbn [length]. lia.
      * eexists. split; [reflexivity|]. apply padChildren_length. lia.
    + eexists. split; [reflexivity|]. apply padChildren_length. lia.
Qed.

Lemma decodeShort_body_result (hash elems : list byte) (cachegen : Z) :
  match decodeShort_body rec hash elems cachegen with
  | (Some (shortNode _ _ fl), None) => fl = mkFlag hash cachegen false
  | (None, Some _) => True
  | _ => False
  end.
Proof.
  unfold decodeShort_body.
  destruct (rlp.SplitString elems) as [[kbuf rest]|e]; [|exact I].
  destruct (hasTerm (compactToHex kbuf)).
  - destruct (rlp.SplitString rest) as [[val rest']|e]; [reflexivity | exact I].
  - destruct (decodeRef_body rec rest cachegen) as [[r rest'] [e|]].
    + destruct (wrapError (Some e) "val") eqn:E; [exact I|].
      apply wrapError_none in E. discriminate.
    + reflexivity.
Qed.

Lemma decodeNode_body_result (hash buf : list byte) (cachegen : Z) :
  match decodeNode_body rec hash buf cachegen with
  | (Some (shortNode _ _ fl), None) => fl = mkFlag hash cachegen false
  | (Some (fullNode ch fl), _) => fl = mkFlag hash cachegen false /\ length ch = 17%nat
  | (None, Some _) => True
  | _ => False
  end.
Proof.
  unfold decodeNode_body.
  destruct (length buf =? 0)%nat; [exact I|].
  destruct (rlp.SplitList buf) as [[elems rest]|e]; [|exact I].
  destruct (rlp.CountValues elems) as [c|e]; [|exact I].
  destruct c as [|[|[|[|[|[|[|[|[|[|[|[|[|[|[|[|[|[|c]]]]]]]]]]]]]]]]]]; try exact I.
  - pose proof (decodeShort_body_result hash elems cachegen) as HS.
    destruct (decodeShort_body rec hash elems cachegen) as [[[ch fl|k v fl|h|v]|] [e|]];
      try contradiction; cbn [wrapError].
    + exact HS.
    + destruct e; exact I.
  - destruct (decodeFull_body_children hash elems cachegen) as (ch & Hf & Hlen).
    destruct (decodeFull_body rec hash elems cachegen) as [n err].
    cbn [fst] in Hf. subst n. split; [reflexivity | exact Hlen].
Qed.

End DecoderResults.

(** [decodeNode] with a nil error has decoded a short node or a full node
    whose flag holds the given hash and generation and is clean; a full
    node has 17 children, also the one that comes with an error; and with
    a nil error there always is a node. *)
Theorem decodeNode_result (hash buf : list byte) (cachegen : Z) :
  match decodeNode hash buf cachegen with
  | (Some (shortNode _ _ fl), None) => fl = mkFlag hash cachegen false
  | (Some (fullNode ch fl), _) => fl = mkFlag hash cachegen false /\ length ch = 17%nat
  | (None, Some _) => True
  | _ => False
  end.
Proof. unfold decodeNode. cbn [decodeNode_fuel]. apply decodeNode_body_result. Qed.

(** [decodeFull] returns a full node of exactly 17 children whether or not
    it fails, flagged with the given hash and generation. *)
Theorem decodeFull_children (hash elems : list byte) (cachegen : Z) :
  exists ch,
    fst (decodeFull hash elems cachegen) = Some (fullNode ch (mkFlag hash cachegen false)) /\
    length ch = 17%nat.
Proof. unfold decodeFull. apply decodeFull_body_children. Qed.

(** A node that [decodeNode] has just decoded at generation [cachegen] is
    clean, so at generation [g] it can be unloaded exactly when the limit
    is at most the uint16 distance from [cachegen] to [g]: at once with
    the limit 0, and never at its own generation with a positive limit. *)
Theorem decodeNode_canUnload (hash buf : list byte) (cachegen g l : Z) (n : node) :
  decodeNode hash buf cachegen = (Some n, None) ->
  canUnload n g l = (l <=? uint16 (g - cachegen)) /\
  (0 < l -> canUnload n cachegen l = false).
Proof.
  intros HD. pose proof (decodeNode_body_result (decodeNode_fuel (length buf))
                          hash buf cachegen) as HR.
  unfold decodeNode in HD. cbn [decodeNode_fuel] in HD. rewrite HD in HR.
  assert (Hfl : forall fl, fl = mkFlag hash cachegen false ->
            forall g', nodeFlag_canUnload fl g' l = (l <=? uint16 (g' - cachegen))).
  { intros fl -> g'. reflexivity. }
  assert (Hself : 0 < l -> (l <=? uint16 (cachegen - cachegen)) = false).
  { intros Hl. rewrite Z.sub_diag. apply Z.leb_gt. exact Hl. }
  destruct n as [ch fl|k v fl|h|v]; try contradiction; cbn [canUnload].
  - destruct HR as [HR _]. split; [apply Hfl; exact HR|].
    intros Hl. rewrite (Hfl fl HR). apply Hself. exact Hl.
  - split; [apply Hfl; exact HR|].
    intros Hl. rewrite (Hfl fl HR). apply Hself. exact Hl.
Qed.

Lemma decodeNode_canUnload_witness :
  canUnload (shortNode [x10] (Some (valueNode [x16])) (mkFlag [] 7 false)) 9 2 = true.
Proof.
  destruct (decodeNode_canUnload [] [xc2; x20; x16] 7 9 2
              (shortNode [x10] (Some (valueNode [x16])) (mkFlag [] 7 false))) as [H _].
  - reflexivity.
  - rewrite H. reflexivity.
Defined.

(** *** Child references, by kind *)

Lemma decodeRef_result (buf rest : list byte) (cachegen : Z) (n : option node) :
  decodeRef buf cachegen = (n, rest, None) ->
  match n with
  | None => rlp.Split buf = inl (rlp.String, [], rest)
  | Some (hashNode h) => length h = 32%nat /\ rlp.Split buf = inl (rlp.String, h, rest)
  | Some (valueNode _) => False
  | Some (shortNode _ _ fl) =>
    fl = mkFlag [] cachegen false /\ (length buf - length rest <= 32)%nat
  | Some (fullNode ch fl) =>
    fl = mkFlag [] cachegen false /\ length ch = 17%nat /\
    (length buf - length rest <= 32)%nat
  end.
Proof.
  unfold decodeRef, decodeRef_body.
  destruct (rlp.Split buf) as [[[kind val] rest']|e]; [|discriminate].
  destruct kind; try discriminate.
  - destruct (length val =? 0)%nat eqn:E0.
    + intros H. injection H as <- <-. apply Nat.eqb_eq in E0.
      destruct val; [reflexivity | discriminate].
    + destruct (length val =? 32)%nat eqn:E32; [|discriminate].
      intros H. injection H as <- <-. apply Nat.eqb_eq in E32. split; [exact E32 | reflexivity].
  - destruct (hashLen <? length buf - length rest')%nat eqn:Esz; [discriminate|].
    apply Nat.ltb_ge in Esz. unfold hashLen in Esz.
    destruct (length buf) as [|k] eqn:Elen.
    { cbn [decodeNode_fuel]. discriminate. }
    cbn [decodeNode_fuel].
    pose proof (decodeNode_body_result (decodeNode_fuel k) [] buf cachegen) as HR.
    destruct (decodeNode_body (decodeNode_fuel k) [] buf cachegen) as [n' err'].
    intros H. injection H as <- <- ->.
    destruct n' as [[ch fl|k' v fl|h|v]|]; try contradiction.
    + destruct HR as [Hf Hl]. repeat split; try assumption.
    + split; assumption.
Qed.

(** What [decodeRef] returns with a nil error: nil for the empty string,
    a hash node of exactly 32 bytes for a string of 32 bytes, or, for a
    list of at most 32 bytes, a short or full node that carries no hash
    and the given generation; never a value node. *)
Theorem decodeRef_kinds (buf rest : list byte) (cachegen : Z) (n : option node) :
  decodeRef buf cachegen = (n, rest, None) ->
  match n with
  | None => rlp.Split buf = inl (rlp.String, [], rest)
  | Some (hashNode h) => length h = 32%nat /\ rlp.Split buf = inl (rlp.String, h, rest)
  | Some (valueNode _) => False
  | Some (shortNode _ _ fl) =>
    fl = mkFlag [] cachegen false /\ (length buf - length rest <= 32)%nat
  | Some (fullNode ch fl) =>
    fl = mkFlag [] cachegen false /\ length ch = 17%nat /\
    (length buf - length rest <= 32)%nat
  end.
Proof. exact (decodeRef_result buf rest cachegen n). Qed.

Lemma decodeRef_kinds_witness :
  length (repeat xab 32) = 32%nat /\
  rlp.Split (xa0 :: repeat xab 32 ++ [x80]) = inl (rlp.String, repeat xab 32, [x80]).
Proof.
  apply (decodeRef_kinds (xa0 :: repeat xab 32 ++ [x80]) [x80] 0
           (Some (hashNode (repeat xab 32)))).
  reflexivity.
Defined.

(** *** The path of a decoding error *)

(** Every error of [decodeNode] tells where it arose: an empty buffer, a
    buffer that is no list, a list of neither 2 nor 17 items, or an error
    from inside a short or full node, which is a [decodeError] whose
    stack ends in the context of the node, the innermost context first. *)
Theorem decodeNode_error_path (hash buf : list byte) (cachegen : Z)
    (n : option node) (e : error) :
  decodeNode hash buf cachegen = (n, Some e) ->
  e = ErrUnexpectedEOF \/
  (exists x, e = ErrDecode x) \/
  (exists c, e = ErrListElements c /\ c <> 2%nat /\ c <> 17%nat) \/
  (exists what stack,
      e = decodeError what (stack ++ ["short"%string]) \/
      e = decodeError what (stack ++ ["full"%string])).
Proof.
  unfold decodeNode. cbn [decodeNode_fuel]. unfold decodeNode_body.
  destruct (length buf =? 0)%nat.
  { intros H. injection H as _ <-. left. reflexivity. }
  destruct (rlp.SplitList buf) as [[elems rest]|x].
  2: { intros H. injection H as _ <-. right. left. eexists. reflexivity. }
  assert (Hwrap : forall err ctx,
            wrapError err ctx = Some e ->
            exists what stack, e = decodeError what (stack ++ [ctx])).
  { intros [[]|] ctx Hw; cbn in Hw; try discriminate; injection Hw as <-;
      try (eexists; exists []; reflexivity).
    eexists. eexists. reflexivity. }
  destruct (rlp.CountValues elems) as [c|x].
  2: { intros H. injection H as _ <-. right. right. left.
       exists 0%nat. repeat split; discriminate. }
  destruct (Nat.eq_dec c 2) as [->|Hc2].
  { destruct (decodeShort_body _ hash elems cachegen) as [n' err'].
    intros H. injection H as _ Hw. apply Hwrap in Hw as (what & stack & ->).
    right. right. right. exists what, stack. left. reflexivity. }
  destruct (Nat.eq_dec c 17) as [->|Hc17].
  { destruct (decodeFull_body _ hash elems cachegen) as [n' err'].
    intros H. injection H as _ Hw. apply Hwrap in Hw as (what & stack & ->).
    right. right. right. exists what, stack. right. reflexivity. }
  intros H. right. right. left. exists c.
  destruct c as [|[|[|[|[|[|[|[|[|[|[|[|[|[|[|[|[|[|c]]]]]]]]]]]]]]]]]]; try contradiction;
    injection H as _ <-; repeat split; assumption.
Qed.

Lemma decodeNode_error_path_witness :
  ErrListElements 3 = ErrUnexpectedEOF \/
  (exists x, ErrListElements 3 = ErrDecode x) \/
  (exists c, ErrListElements 3 = ErrListElements c /\ c <> 2%nat /\ c <> 17%nat) \/
  (exists what stack,
      ErrListElements 3 = decodeError what (stack ++ ["short"%string]) \/
      ErrListElements 3 = decodeError what (stack ++ ["full"%string])).
Proof.
  apply (decodeNode_error_path [] [xc3; x01; x02; x03] 0 None (ErrListElements 3)).
  reflexivity.
Defined.

Example decodeNode_error_in_child :
  snd (decodeNode [] ([xd1] ++ repeat x80 15 ++ [x05; x80]) 0)
    = Some (decodeError (ErrStringSize 1) ["[15]"; "full"]%string).
Proof. vm_compute. reflexivity. Qed.

(** *** The cached hash of a decoded node *)

(** The method [cache] of the four variants: the cached hash and the
    dirty flag; a hash node and a value node have nothing cached. *)
Definition cache (n : node) : list byte * bool :=
  match n with
  | fullNode _ flags => (hash flags, dirty flags)
  | shortNode _ _ flags => (hash flags, dirty flags)
  | hashNode _ => ([], true)
  | valueNode _ => ([], true)
  end.

(** A node that [decodeNode] has decoded reports as its cached hash the
    hash it was decoded under, and is clean; a child that [decodeRef] has
    decoded in place reports no hash and is clean, and a child that is a
    hash reference reports nothing cached. *)
Theorem decoded_node_cache (key buf : list byte) (cachegen : Z) :
  (forall n, decodeNode key buf cachegen = (Some n, None) -> cache n = (key, false)) /\
  (forall n rest, decodeRef buf cachegen = (Some n, rest, None) ->
                  cache n = ([], false) \/
                  ((exists h, n = hashNode h) /\ cache n = ([], true))).
Proof.
  split.
  - intros n HD.
    pose proof (decodeNode_body_result (decodeNode_fuel (length buf)) key buf cachegen) as HR.
    unfold decodeNode in HD. cbn [decodeNode_fuel] in HD. rewrite HD in HR. destruct n as [ch fl|k v fl|h|v]; try contradiction; cbn [cache].
    + destruct HR as [-> _]. reflexivity.
    + rewrite HR. reflexivity.
  - intros n rest HD. pose proof (decodeRef_result buf rest cachegen (Some n) HD) as HK.
    destruct n as [ch fl|k v fl|h|v]; try contradiction; cbn [cache].
    + destruct HK as [-> _]. left. reflexivity.
    + destruct HK as [-> _]. left. reflexivity.
    + right. split; [exists h; reflexivity | reflexivity].
Qed.

Lemma decoded_node_cache_witness :
  cache (shortNode [x10] (Some (valueNode [x16])) (mkFlag [xaa; xbb] 7 false))
    = ([xaa; xbb], false).
Proof.
  apply (decoded_node_cache [xaa; xbb] [xc2; x20; x16] 7). reflexivity.
Defined.

End Trie.

(** ** core: the state transition of a message *)

Module StateTransition.

(** [common.Address], 20 bytes, as the number they spell. *)
Definition Address : Type := N.

Inductive error : Type :=
| ErrNonceTooHigh
| ErrNonceTooLow
| errInsufficientBalanceForGas
| ErrGasLimitReached               (* of the gas pool *)
| ErrOutOfGas                      (* vm.ErrOutOfGas *)
| ErrInsufficientBalance           (* vm.ErrInsufficientBalance *)
| ErrVM (what : string).           (* any other error of the virtual machine *)

Definition poolError (e : GasPool.error) : error :=
  match e with GasPool.ErrGasLimitReached => ErrGasLimitReached end.

(** [Message]: the interface, as the record of what its methods return.
    [To] is nil ([None]) for a contract creation. *)
Record Message : Type := mkMessage {
  From : Address;
  To : option Address;
  GasPrice : Z;
  Gas : Z;
  Value : Z;
  Nonce : Z;
  CheckNonce : bool;
  Data : list byte
}.

(** What the transition needs of [vm.StateDB], whose code is not among
    the sources. Balances are big integers, nonces and the refund counter
    are uint64. *)
Class StateDB (S : Type) : Type := {
  GetBalance : S -> Address -> Z;
  SubBalance : S -> Address -> Z -> S;
  AddBalance : S -> Address -> Z -> S;
  GetNonce : S -> Address -> Z;
  SetNonce : S -> Address -> Z -> S;
  GetRefund : S -> Z
}.

(** What the transition needs of [vm.EVM], whose code is not among the
    sources: [Create] and [Call] take the state, the sender, (the
    recipient,) the data, the gas and the value, and return the output,
    the gas that is left, the error and the state they leave. *)
Record EVM (S : Type) : Type := mkEVM {
  Create : S -> Address -> list byte -> Z -> Z -> list byte * Z * option error * S;
  Call : S -> Address -> Address -> list byte -> Z -> Z -> list byte * Z * option error * S;
  IsHomestead : bool;
  Coinbase : Address
}.
Arguments Create {S}.
Arguments Call {S}.
Arguments IsHomestead {S}.
Arguments Coinbase {S}.

Record StateTransition (S : Type) : Type := mkST {
  gp : GasPool.GasPool;
  msg : Message;
  gas : Z;
  gasPrice : Z;
  initialGas : Z;
  value : Z;
  data : list byte;
  state : S;
  evm : EVM S
}.
Arguments mkST {S}.
Arguments gp {S}.
Arguments msg {S}.
Arguments gas {S}.
Arguments gasPrice {S}.
Arguments initialGas {S}.
Arguments value {S}.
Arguments data {S}.
Arguments state {S}.
Arguments evm {S}.

Section Transition.

(** The gas prices of package params, which is not among the sources. *)
Variables TxGas TxGasContractCreation TxDataNonZeroGas TxDataZeroGas : Z.

Definition nonZeroBytes (data : list byte) : Z :=
  Z.of_nat (length (filter (fun byt => negb (Byte.eqb byt x00)) data)).

(** [IntrinsicGas]: the gas and the error. *)
Definition IntrinsicGas (data : list byte) (contractCreation homestead : bool)
  : Z * option error :=
  (* Set the starting gas for the raw transaction *)
  let gas := if contractCreation && homestead then TxGasContractCreation else TxGas in
  (* Bump the required gas by the amount of transactional data *)
  if (0 <? length data)%nat then
    let nz := nonZeroBytes data in
    (* Make sure we don't exceed uint64 for all data combinations *)
    if (MaxUint64 - gas) / TxDataNonZeroGas <? nz then (0, Some ErrOutOfGas)
    else
      let gas := uint64 (gas + uint64 (nz * TxDataNonZeroGas)) in
      let z := uint64 (Z.of_nat (length data) - nz) in
      if (MaxUint64 - gas) / TxDataZeroGas <? z then (0, Some ErrOutOfGas)
      else (uint64 (gas + uint64 (z * TxDataZeroGas)), None)
  else (gas, None).

Context {S : Type} {SDB : StateDB S}.

Definition NewStateTransition (evm : EVM S) (msg : Message) (gp : GasPool.GasPool)
    (state : S) : StateTransition S :=
  mkST gp msg 0 (GasPrice msg) 0 (Value msg) (Data msg) state evm.

(** [to]: the recipient, the zero address for a contract creation (a
    message is never nil here). *)
Definition to (st : StateTransition S) : Address :=
  match To (msg st) with
  | None => 0%N
  | Some a => a
  end.

Definition setGas (st : StateTransition S) (g : Z) : StateTransition S :=
  mkST (gp st) (msg st) g (gasPrice st) (initialGas st) (value st) (data st)
       (state st) (evm st).

Definition setState (st : StateTransition S) (s : S) : StateTransition S :=
  mkST (gp st) (msg st) (gas st) (gasPrice st) (initialGas st) (value st) (data st)
       s (evm st).

Definition useGas (st : StateTransition S) (amount : Z) : option error * StateTransition S :=
  if gas st <? amount then (Some ErrOutOfGas, st)
  else (None, setGas st (uint64 (gas st - amount))).

Definition buyGas (st : StateTransition S) : option error * StateTransition S :=
  let mgval := Gas (msg st) * gasPrice st in
  if GetBalance (state st) (From (msg st)) <? mgval
  then (Some errInsufficientBalanceForGas, st)
  else
    match GasPool.SubGas (gp st) (Gas (msg st)) with
    | (Some e, _) => (Some (poolError e), st)
    | (None, gp') =>
      (None,
       mkST gp' (msg st) (uint64 (gas st + Gas (msg st))) (gasPrice st) (Gas (msg st))
            (value st) (data st)
            (SubBalance (state st) (From (msg st)) mgval) (evm st))
    end.

Definition preCheck (st : StateTransition S) : option error * StateTransition S :=
  (* Make sure this transaction's nonce is correct. *)
  let nonce := GetNonce (state st) (From (msg st)) in
  if CheckNonce (msg st) && (nonce <? Nonce (msg st)) then (Some ErrNonceTooHigh, st)
  else if CheckNonce (msg st) && (Nonce (msg st) <? nonce) then (Some ErrNonceTooLow, st)
  else buyGas st.

(** [gasUsed]: the amount of gas used up by the state transition. *)
Definition gasUsed (st : StateTransition S) : Z :=
  uint64 (initialGas st - gas st).

(** [refundGas]; [None] is the panic of [AddGas]. *)
Definition refundGas (st : StateTransition S) : option (StateTransition S) :=
  (* Apply refund counter, capped to half of the used gas. *)
  let refund := gasUsed st / 2 in
  let refund := if GetRefund (state st) <? refund then GetRefund (state st) else refund in
  let gas' := uint64 (gas st + refund) in
  (* Return ETH for remaining gas, exchanged at the original rate. *)
  let remaining := gas' * gasPrice st in
  let state' := AddBalance (state st) (From (msg st)) remaining in
  (* Also return remaining gas to the block gas counter *)
  match GasPool.AddGas (gp st) gas' with
  | None => None
  | Some gp' =>
    Some (mkST gp' (msg st) gas' (gasPrice st) (initialGas st) (value st) (data st)
               state' (evm st))
  end.

(** The results of [TransitionDb] with the transition it leaves. *)
Record result : Type := mkResult {
  ret : list byte;
  usedGas : Z;
  failed : bool;
  err : option error;
  after : StateTransition S
}.

Definition isInsufficientBalance (e : option error) : bool :=
  match e with Some ErrInsufficientBalance => true | _ => false end.

Definition isSome {A : Type} (o : option A) : bool :=
  match o with Some _ => true | None => false end.

(** [TransitionDb]; [None] is a panic. *)
Definition TransitionDb (st : StateTransition S) : option result :=
  match preCheck st with
  | (Some e, st) => Some (mkResult [] 0 false (Some e) st)
  | (None, st) =>
    let sender := From (msg st) in
    let homestead := IsHomestead (evm st) in
    let contractCreation := negb (isSome (To (msg st))) in
    (* Pay intrinsic gas *)
    match IntrinsicGas (data st) contractCreation homestead with
    | (_, Some e) => Some (mkResult [] 0 false (Some e) st)
    | (igas, None) =>
      match useGas st igas with
      | (Some e, st) => Some (mkResult [] 0 false (Some e) st)
      | (None, st) =>
        let '(out, leftOver, vmerr, s') :=
          if contractCreation
          then Create (evm st) (state st) sender (data st) (gas st) (value st)
          else
            (* Increment the nonce for the next transaction *)
            let s1 := SetNonce (state st) sender
                        (uint64 (GetNonce (state st) sender + 1)) in
            Call (evm st) s1 sender (to st) (data st) (gas st) (value st) in
        let st := setState (setGas st leftOver) s' in
        if isInsufficientBalance vmerr
        then Some (mkResult [] 0 false vmerr st)
        else
          match refundGas st with
          | None => None
          | Some st =>
            let st := setState st
                        (AddBalance (state st) (Coinbase (evm st))
                           (gasUsed st * gasPrice st)) in
            Some (mkResult out (gasUsed st) (isSome vmerr) None st)
          end
      end
    end
  end.

(** [ApplyMessage]: a new state transition, run. *)
Definition ApplyMessage (evm : EVM S) (msg : Message) (gp : GasPool.GasPool) (state : S)
  : option result :=
  TransitionDb (NewStateTransition evm msg gp state).

(** *** The intrinsic gas *)

(** The prices are uint64 constants, the two data prices not zero. *)
Definition pricesOk : Prop :=
  in_uint64 TxGas /\ in_uint64 TxGasContractCreation /\
  0 < TxDataNonZeroGas < 2 ^ 64 /\ 0 < TxDataZeroGas < 2 ^ 64.

Lemma nonZeroBytes_range (data : list byte) :
  0 <= nonZeroBytes data <= Z.of_nat (length data).
Proof.
  unfold nonZeroBytes.
  pose proof (filter_length_le (fun byt => negb (Byte.eqb byt x00)) data). lia.
Qed.

(** The test [(MaxUint64 - gas) / price < n] of the code. *)
Lemma overflow_test (g price n : Z) :
  0 <= g <= 2 ^ 64 - 1 -> 0 < price -> 0 <= n ->
  ((2 ^ 64 - 1 - g) / price <? n) = (2 ^ 64 - 1 <? g + n * price).
Proof.
  intros Hg Hp Hn.
  destruct (2 ^ 64 - 1 <? g + n * price) eqn:E.
  - apply Z.ltb_lt in E. apply Z.ltb_lt.
    apply Z.div_lt_upper_bound; [exact Hp | lia].
  - apply Z.ltb_ge in E. apply Z.ltb_ge.
    apply Z.div_le_lower_bound; [exact Hp | lia].
Qed.

Lemma IntrinsicGas_total (data : list byte) (contractCreation homestead : bool) :
  pricesOk -> Z.of_nat (length data) < 2 ^ 63 ->
  let start := if contractCreation && homestead then TxGasContractCreation else TxGas in
  let nz := nonZeroBytes data in
  let total := start + nz * TxDataNonZeroGas
               + (Z.of_nat (length data) - nz) * TxDataZeroGas in
  (total <= MaxUint64 ->
   IntrinsicGas data contractCreation homestead = (total, None)) /\
  (MaxUint64 < total ->
   IntrinsicGas data contractCreation homestead = (0, Some ErrOutOfGas)).
Proof.
  intros (HT & HC & HN & HZ) Hlen start nz total.
  assert (Hstart : in_uint64 start) by (subst start; destruct (_ && _); assumption).
  pose proof (nonZeroBytes_range data) as Hnz. fold nz in Hnz.
  unfold IntrinsicGas. fold start. fold nz.
  unfold in_uint64, MaxUint64 in *.
  destruct (0 <? length data)%nat eqn:Elen.
  - rewrite (overflow_test start TxDataNonZeroGas nz) by lia.
    destruct (2 ^ 64 - 1 <? start + nz * TxDataNonZeroGas) eqn:E1.
    + apply Z.ltb_lt in E1. split; [|reflexivity].
      intros Htot. subst total. exfalso.
      assert (0 <= (Z.of_nat (length data) - nz) * TxDataZeroGas) by nia. lia.
    + apply Z.ltb_ge in E1.
      assert (Hm1 : 0 <= nz * TxDataNonZeroGas) by nia.
      rewrite (uint64_small (nz * TxDataNonZeroGas)) by (unfold in_uint64; lia).
      rewrite (uint64_small (start + nz * TxDataNonZeroGas)) by (unfold in_uint64; lia).
      rewrite (uint64_small (Z.of_nat (length data) - nz)) by (unfold in_uint64; lia).
      rewrite (overflow_test (start + nz * TxDataNonZeroGas) TxDataZeroGas
                 (Z.of_nat (length data) - nz)) by lia.
      fold total.
      destruct (2 ^ 64 - 1 <? total) eqn:E2.
      * apply Z.ltb_lt in E2. split; [lia | reflexivity].
      * apply Z.ltb_ge in E2. split; [|lia]. intros _.
        assert (Hm2 : 0 <= (Z.of_nat (length data) - nz) * TxDataZeroGas) by nia.
        rewrite (uint64_small ((Z.of_nat (length data) - nz) * TxDataZeroGas))
          by (unfold in_uint64; subst total; lia).
        rewrite uint64_small by (unfold in_uint64; subst total; lia).
        reflexivity.
  - apply Nat.ltb_ge in Elen.
    assert (Hl0 : length data = 0%nat) by lia.
    assert (Hnz0 : nz = 0) by lia.
    subst total. rewrite Hl0, Hnz0. cbn [Z.of_nat].
    split; [intros _; f_equal; lia | lia].
Qed.

(** [IntrinsicGas] never wraps around. With [nz] bytes of the data not
    zero, it returns the starting gas plus [nz] times the price of such a
    byte plus the price of a zero byte for each of the others, exactly,
    whenever this sum is a uint64, and vm.ErrOutOfGas whenever it is not. *)
Theorem IntrinsicGas_exact (data : list byte) (contractCreation homestead : bool) :
  pricesOk -> Z.of_nat (length data) < 2 ^ 63 ->
  let start := if contractCreation && homestead then TxGasContractCreation else TxGas in
  let nz := nonZeroBytes data in
  let total := start + nz * TxDataNonZeroGas
               + (Z.of_nat (length data) - nz) * TxDataZeroGas in
  (total <= MaxUint64 ->
   IntrinsicGas data contractCreation homestead = (total, None)) /\
  (MaxUint64 < total ->
   IntrinsicGas data contractCreation homestead = (0, Some ErrOutOfGas)).
Proof. exact (IntrinsicGas_total data contractCreation homestead). Qed.

(** *** Buying gas *)

Lemma preCheck_fails_clean (st st' : StateTransition S) (e : error) :
  preCheck st = (Some e, st') ->
  st' = st /\
  match e with
  | ErrNonceTooHigh =>
    CheckNonce (msg st) = true /\ GetNonce (state st) (From (msg st)) < Nonce (msg st)
  | ErrNonceTooLow =>
    CheckNonce (msg st) = true /\ Nonce (msg st) < GetNonce (state st) (From (msg st))
  | errInsufficientBalanceForGas =>
    GetBalance (state st) (From (msg st)) < Gas (msg st) * gasPrice st
  | ErrGasLimitReached => gp st < Gas (msg st)
  | _ => False
  end.
Proof.
  unfold preCheck.
  destruct (CheckNonce (msg st) && (GetNonce (state st) (From (msg st)) <? Nonce (msg st)))
    eqn:E1.
  { intros H. injection H as <- <-. apply andb_prop in E1 as [Hc Hn].
    apply Z.ltb_lt in Hn. auto. }
  destruct (CheckNonce (msg st) && (Nonce (msg st) <? GetNonce (state st) (From (msg st))))
    eqn:E2.
  { intros H. injection H as <- <-. apply andb_prop in E2 as [Hc Hn].
    apply Z.ltb_lt in Hn. auto. }
  unfold buyGas.
  destruct (GetBalance (state st) (From (msg st)) <? Gas (msg st) * gasPrice st) eqn:E3.
  { intros H. injection H as <- <-. apply Z.ltb_lt in E3. auto. }
  unfold GasPool.SubGas.
  destruct (gp st <? Gas (msg st)) eqn:E4; [|discriminate].
  intros H. injection H as <- <-. apply Z.ltb_lt in E4. cbn. auto.
Qed.

(** A [preCheck] that fails has changed nothing: not the pool, not the
    gas of the transition, not the state. The error tells why: the nonce
    of the sender is below or above the nonce of the message, the balance
    does not pay for the gas, or the pool holds less than the gas of the
    message. *)
Theorem preCheck_failure (st st' : StateTransition S) (e : error) :
  preCheck st = (Some e, st') ->
  st' = st /\
  match e with
  | ErrNonceTooHigh =>
    CheckNonce (msg st) = true /\ GetNonce (state st) (From (msg st)) < Nonce (msg st)
  | ErrNonceTooLow =>
    CheckNonce (msg st) = true /\ Nonce (msg st) < GetNonce (state st) (From (msg st))
  | errInsufficientBalanceForGas =>
    GetBalance (state st) (From (msg st)) < Gas (msg st) * gasPrice st
  | ErrGasLimitReached => gp st < Gas (msg st)
  | _ => False
  end.
Proof. exact (preCheck_fails_clean st st' e). Qed.

(** A [preCheck] that succeeds has taken the gas of the message from the
    pool and given it to the transition, and has debited the sender with
    its price. *)
Lemma preCheck_success (st st' : StateTransition S) :
  in_uint64 (gp st) -> in_uint64 (Gas (msg st)) ->
  preCheck st = (None, st') ->
  gp st' = gp st - Gas (msg st) /\ 0 <= gp st' /\
  gas st' = uint64 (gas st + Gas (msg st)) /\
  initialGas st' = Gas (msg st) /\
  state st' = SubBalance (state st) (From (msg st)) (Gas (msg st) * gasPrice st) /\
  Gas (msg st) * gasPrice st <= GetBalance (state st) (From (msg st)) /\
  (CheckNonce (msg st) = true -> GetNonce (state st) (From (msg st)) = Nonce (msg st)) /\
  msg st' = msg st /\ gasPrice st' = gasPrice st /\ data st' = data st /\
  value st' = value st /\ evm st' = evm st.
Proof.
  intros Hgp Hgas. unfold in_uint64 in *. unfold preCheck.
  destruct (CheckNonce (msg st) && (GetNonce (state st) (From (msg st)) <? Nonce (msg st)))
    eqn:E1; [discriminate|].
  destruct (CheckNonce (msg st) && (Nonce (msg st) <? GetNonce (state st) (From (msg st))))
    eqn:E2; [discriminate|].
  unfold buyGas.
  destruct (GetBalance (state st) (From (msg st)) <? Gas (msg st) * gasPrice st) eqn:E3;
    [discriminate|].
  unfold GasPool.SubGas.
  destruct (gp st <? Gas (msg st)) eqn:E4; [discriminate|].
  intros H. injection H as <-. cbn.
  apply Z.ltb_ge in E3, E4.
  rewrite uint64_small by (unfold in_uint64; lia).
  repeat split; try lia; try reflexivity.
  intros Hc. rewrite Hc in E1, E2. cbn in E1, E2.
  apply Z.ltb_ge in E1, E2. lia.
Qed.

(** *** Refunding gas *)

Lemma refundGas_ledger (st : StateTransition S) :
  0 <= gas st <= initialGas st ->
  0 <= gp st -> gp st + initialGas st <= MaxUint64 ->
  0 <= GetRefund (state st) ->
  exists st',
    refundGas st = Some st' /\
    gp st' + gasUsed st' = gp st + initialGas st /\
    gasUsed st' <= gasUsed st <= 2 * gasUsed st' /\
    gasUsed st - gasUsed st' <= GetRefund (state st) /\
    initialGas st' = initialGas st /\
    state st' = AddBalance (state st) (From (msg st)) (gas st' * gasPrice st).
Proof.
  intros Hgas Hgp Hsum Href. unfold MaxUint64 in *.
  unfold refundGas, gasUsed.
  rewrite (uint64_small (initialGas st - gas st)) by (unfold in_uint64; lia).
  remember (initialGas st - gas st) as used eqn:Hused.
  remember (if GetRefund (state st) <? used / 2 then GetRefund (state st) else used / 2)
    as refund eqn:Hrefund.
  assert (Hhalf : 2 * (used / 2) <= used) by (apply Z.mul_div_le; lia).
  assert (Hpos : 0 <= used / 2) by (apply Z.div_pos; lia).
  assert (Hr : 0 <= refund <= used / 2 /\ refund <= GetRefund (state st)).
  { subst refund. destruct (GetRefund (state st) <? used / 2) eqn:E.
    - apply Z.ltb_lt in E. lia.
    - apply Z.ltb_ge in E. lia. }
  clear Hrefund.
  rewrite (uint64_small (gas st + refund)) by (unfold in_uint64; lia).
  unfold GasPool.AddGas, MaxUint64.
  assert (E : (2 ^ 64 - 1 - (gas st + refund) <? gp st) = false)
    by (apply Z.ltb_ge; lia).
  rewrite E. rewrite uint64_small by (unfold in_uint64; lia).
  eexists. split; [reflexivity|]. cbn [gp gas initialGas state msg gasPrice].
  rewrite uint64_small by (unfold in_uint64; lia).
  repeat split; try reflexivity; lia.
Qed.

(** [refundGas] on a transition that has not used more gas than it
    bought, with a pool that was charged for it: [AddGas] does not panic;
    the refund is at most half of the used gas and at most the refund
    counter; and what is missing in the pool afterwards is exactly the gas
    that counts as used. *)
Theorem refundGas_accounting (st : StateTransition S) :
  0 <= gas st <= initialGas st ->
  0 <= gp st -> gp st + initialGas st <= MaxUint64 ->
  0 <= GetRefund (state st) ->
  exists st',
    refundGas st = Some st' /\
    gp st' + gasUsed st' = gp st + initialGas st /\
    gasUsed st' <= gasUsed st <= 2 * gasUsed st' /\
    gasUsed st - gasUsed st' <= GetRefund (state st) /\
    initialGas st' = initialGas st /\
    state st' = AddBalance (state st) (From (msg st)) (gas st' * gasPrice st).
Proof. exact (refundGas_ledger st). Qed.

(** *** The whole transition *)

Definition gasLeft (r : list byte * Z * option error * S) : Z := snd (fst (fst r)).

(** The virtual machine does not hand back more gas than it was given. *)
Definition evmKeepsGas (e : EVM S) : Prop :=
  (forall s sender d g v, 0 <= g -> 0 <= gasLeft (Create e s sender d g v) <= g) /\
  (forall s sender t d g v, 0 <= g -> 0 <= gasLeft (Call e s sender t d g v) <= g).

Lemma IntrinsicGas_error (d : list byte) (contractCreation homestead : bool)
    (g : Z) (x : error) :
  pricesOk -> Z.of_nat (length d) < 2 ^ 63 ->
  IntrinsicGas d contractCreation homestead = (g, Some x) -> x = ErrOutOfGas.
Proof.
  intros HP Hl HI.
  destruct (IntrinsicGas_total d contractCreation homestead HP Hl) as [Hok Hbad].
  cbv zeta in Hok, Hbad.
  match type of Hok with ?t <= _ -> _ => destruct (Z_le_gt_dec t MaxUint64) as [Hle|Hgt] end.
  - rewrite (Hok Hle) in HI. discriminate.
  - rewrite Hbad in HI by lia. injection HI as _ <-. reflexivity.
Qed.

Lemma IntrinsicGas_nonneg (d : list byte) (contractCreation homestead : bool) (g : Z) :
  pricesOk -> Z.of_nat (length d) < 2 ^ 63 ->
  IntrinsicGas d contractCreation homestead = (g, None) -> 0 <= g.
Proof.
  intros HP Hl HI.
  destruct (IntrinsicGas_total d contractCreation homestead HP Hl) as [Hok Hbad].
  cbv zeta in Hok, Hbad.
  match type of Hok with ?t <= _ -> _ => destruct (Z_le_gt_dec t MaxUint64) as [Hle|Hgt] end.
  - rewrite (Hok Hle) in HI. injection HI as <-.
    destruct HP as (HT & HC & HN & HZ).
    pose proof (nonZeroBytes_range d) as Hnz.
    assert (0 <= if contractCreation && homestead then TxGasContractCreation else TxGas)
      by (destruct (_ && _); unfold in_uint64 in *; lia).
    assert (0 <= nonZeroBytes d * TxDataNonZeroGas) by nia.
    assert (0 <= (Z.of_nat (length d) - nonZeroBytes d) * TxDataZeroGas) by nia.
    lia.
  - rewrite Hbad in HI by lia. discriminate.
Qed.

(** [ApplyMessage] charges the pool with exactly the gas it reports as
    used. On a nil error the pool is smaller by [usedGas], which is at
    most the gas of the message and at least half of the intrinsic gas,
    and [AddGas] has not panicked. On an error no gas is reported as
    used; either nothing was changed at all (the nonce, the balance or the
    pool did not allow the message), or the error is vm.ErrOutOfGas or
    vm.ErrInsufficientBalance and the pool stays charged with the whole
    gas of the message. *)
Theorem ApplyMessage_accounting (e : EVM S) (m : Message) (gp0 : Z) (s : S) :
  pricesOk -> in_uint64 gp0 -> in_uint64 (Gas m) ->
  Z.of_nat (length (Data m)) < 2 ^ 63 ->
  evmKeepsGas e -> (forall s', 0 <= GetRefund s') ->
  exists r,
    ApplyMessage e m gp0 s = Some r /\
    match err r with
    | None =>
      gp (after r) = gp0 - usedGas r /\
      0 <= usedGas r <= Gas m /\
      fst (IntrinsicGas (Data m) (negb (isSome (To m))) (IsHomestead e)) <= 2 * usedGas r
    | Some x =>
      usedGas r = 0 /\ failed r = false /\
      (after r = NewStateTransition e m gp0 s \/
       (gp (after r) = gp0 - Gas m /\ (x = ErrOutOfGas \/ x = ErrInsufficientBalance)))
    end.
Proof.
  intros HP Hgp HG Hlen [HCreate HCall] Href.
  unfold ApplyMessage, TransitionDb.
  set (st0 := NewStateTransition e m gp0 s).
  destruct (preCheck st0) as [[e1|] st1] eqn:EP.
  { destruct (preCheck_fails_clean st0 st1 e1 EP) as [-> _].
    eexists. split; [reflexivity|]. cbn. auto. }
  destruct (preCheck_success st0 st1 Hgp HG EP)
    as (Hp1 & Hp0 & Hg1 & Hi1 & Hs1 & _ & _ & Hm1 & Hpr1 & Hd1 & Hv1 & He1).
  destruct st1 as [gp1 m1 g1 price1 ig1 v1 d1 s1 e1].
  cbn [gp msg gas gasPrice initialGas value data state evm st0 NewStateTransition] in *.
  subst m1 d1 e1 ig1 gp1.
  rewrite Z.add_0_l in Hg1. unfold in_uint64 in Hgp, HG.
  rewrite uint64_small in Hg1 by (unfold in_uint64; lia). subst g1.
  destruct (IntrinsicGas (Data m) (negb (isSome (To m))) (IsHomestead e))
    as [igas [x|]] eqn:EI.
  { apply IntrinsicGas_error in EI; [|assumption|assumption]. subst x.
    eexists. split; [reflexivity|]. cbn.
    split; [reflexivity|]. split; [reflexivity|]. right. split; [reflexivity|].
    left. reflexivity. }
  pose proof (IntrinsicGas_nonneg _ _ _ _ HP Hlen EI) as Hig.
  unfold useGas. cbn [gas].
  destruct (Gas m <? igas) eqn:EU.
  { eexists. split; [reflexivity|]. cbn.
    split; [reflexivity|]. split; [reflexivity|]. right. split; [reflexivity|].
    left. reflexivity. }
  apply Z.ltb_ge in EU.
  rewrite uint64_small by (unfold in_uint64; lia).
  cbn [setGas gp msg gas gasPrice initialGas value data state evm to].
  match goal with
  | |- context [if negb (isSome (To m))
                then Create e ?a1 ?a2 ?a3 ?a4 ?a5
                else Call e ?b1 ?b2 ?b3 ?b4 ?b5 ?b6] =>
    assert (Hleft : 0 <= gasLeft (if negb (isSome (To m))
                                  then Create e a1 a2 a3 a4 a5
                                  else Call e b1 b2 b3 b4 b5 b6) <= Gas m - igas)
      by (destruct (negb (isSome (To m))); [apply HCreate | apply HCall]; lia);
    destruct (if negb (isSome (To m))
              then Create e a1 a2 a3 a4 a5
              else Call e b1 b2 b3 b4 b5 b6) as [[[out leftOver] vmerr] s']
  end.
  cbn [gasLeft fst snd] in Hleft.
  unfold setState, setGas.
  cbn [gp msg gas gasPrice initialGas value data state evm].
  destruct (isInsufficientBalance vmerr) eqn:EB.
  { eexists. split; [reflexivity|]. cbn.
    destruct vmerr as [[]|]; try discriminate.
    split; [reflexivity|]. split; [reflexivity|]. right. split; [reflexivity|].
    right. reflexivity. }
  destruct (refundGas_ledger
              (mkST (gp0 - Gas m) m leftOver price1 (Gas m) v1 (Data m) s' e))
    as (st3 & HR & Hpool & Hused & _ & _ & _);
    cbn [gp msg gas gasPrice initialGas value data state evm];
    try (unfold MaxUint64; lia); [apply Href|].
  rewrite HR.
  eexists. split; [reflexivity|].
  cbn [err usedGas after gp].
  unfold gasUsed in *. cbn [gp msg gas gasPrice initialGas value data state evm setState] in *.
  rewrite (uint64_small (Gas m - leftOver)) in Hused by (unfold in_uint64; lia).
  destruct st3 as [gp3 m3 g3 price3 ig3 v3 d3 s3 e3].
  cbn [gp msg gas gasPrice initialGas value data state evm] in *.
  pose proof (uint64_range (ig3 - g3)) as Hu. unfold in_uint64 in Hu. cbn [fst].
  repeat split; lia.
Qed.

End Transition.

(** *** A ledger to run transitions on *)

(** Balances and nonces by address (0 where there is no entry) and the
    refund counter. *)
Record ledger : Type := mkLedger {
  balances : list (Address * Z);
  nonces : list (Address * Z);
  refund : Z
}.

Fixpoint lookup (l : list (Address * Z)) (a : Address) : Z :=
  match l with
  | [] => 0
  | (b, v) :: l' => if (a =? b)%N then v else lookup l' a
  end.

Definition update (l : list (Address * Z)) (a : Address) (v : Z) : list (Address * Z) :=
  (a, v) :: filter (fun e => negb (fst e =? a)%N) l.

#[global] Instance ledgerDB : StateDB ledger := {
  GetBalance := fun s a => lookup (balances s) a;
  SubBalance := fun s a v =>
    mkLedger (update (balances s) a (lookup (balances s) a - v)) (nonces s) (refund s);
  AddBalance := fun s a v =>
    mkLedger (update (balances s) a (lookup (balances s) a + v)) (nonces s) (refund s);
  GetNonce := fun s a => lookup (nonces s) a;
  SetNonce := fun s a n => mkLedger (balances s) (update (nonces s) a n) (refund s);
  GetRefund := fun s => Z.max 0 (refund s)
}.

(** A machine that burns up to 700 gas on a call and up to 32000 on a
    creation, and leaves the state as it is. *)
Definition flatEVM : EVM ledger :=
  mkEVM ledger
    (fun s _ _ g _ => ([], g - Z.min g 32000, None, s))
    (fun s _ _ _ g _ => ([], g - Z.min g 700, None, s))
    true 99%N.

Lemma flatEVM_keeps_gas : evmKeepsGas flatEVM.
Proof. split; intros; cbn; lia. Qed.

(** A transfer from account 1 to account 2 with three bytes of data. *)
Definition transfer : Message :=
  mkMessage 1%N (Some 2%N) 10 50000 5 7 true [x00; x01; x02].

Definition funded : ledger := mkLedger [(1%N, 1000000)] [(1%N, 7)] 300.

Example ApplyMessage_runs :
  option_map (fun r => (usedGas r, failed r, err r, gp (after r),
                        balances (state (after r)), nonces (state (after r))))
             (ApplyMessage 21000 53000 68 4 flatEVM transfer 8000000 funded)
  = Some (21540, false, None, 7978460,
          [(99%N, 215400); (1%N, 784600)], [(1%N, 8)]).
Proof. vm_compute. reflexivity. Qed.

Lemma IntrinsicGas_exact_witness :
  IntrinsicGas 21000 53000 68 4 [x00; x01; x02] false true = (21140, None) /\
  IntrinsicGas (2 ^ 64 - 10) 53000 68 4 [x01] false true = (0, Some ErrOutOfGas).
Proof.
  split.
  - apply (IntrinsicGas_exact 21000 53000 68 4 [x00; x01; x02] false true).
    + unfold pricesOk, in_uint64. lia.
    + cbn. lia.
    + vm_compute. discriminate.
  - apply (IntrinsicGas_exact (2 ^ 64 - 10) 53000 68 4 [x01] false true).
    + unfold pricesOk, in_uint64. lia.
    + cbn. lia.
    + vm_compute. reflexivity.
Defined.

Lemma preCheck_failure_witness :
  let st := NewStateTransition flatEVM transfer 40000 funded in
  gp st < Gas (msg st).
Proof.
  cbv zeta.
  destruct (preCheck_failure (NewStateTransition flatEVM transfer 40000 funded)
              (NewStateTransition flatEVM transfer 40000 funded) ErrGasLimitReached)
    as [_ H]; [reflexivity | exact H].
Defined.

Lemma refundGas_accounting_witness :
  exists st',
    refundGas (mkST 7950000 transfer 28460 10 50000 5 [x00; x01; x02] funded flatEVM)
      = Some st' /\
    gp st' + gasUsed st' = 7950000 + 50000.
Proof.
  destruct (refundGas_accounting
              (mkST 7950000 transfer 28460 10 50000 5 [x00; x01; x02] funded flatEVM))
    as (st' & HR & Hpool & _).
  - cbn. lia.
  - cbn. lia.
  - cbn. unfold MaxUint64. lia.
  - cbn. lia.
  - exists st'. split; [exact HR | exact Hpool].
Defined.

Lemma ApplyMessage_accounting_witness :
  exists r,
    ApplyMessage 21000 53000 68 4 flatEVM transfer 8000000 funded = Some r /\
    err r = None /\ gp (after r) = 8000000 - usedGas r.
Proof.
  destruct (ApplyMessage_accounting 21000 53000 68 4 flatEVM transfer 8000000 funded)
    as (r & HA & Hr).
  - unfold pricesOk, in_uint64. lia.
  - unfold in_uint64. lia.
  - unfold in_uint64. cbn. lia.
  - cbn. lia.
  - exact flatEVM_keeps_gas.
  - intros s'. cbn. lia.
  - exists r. split; [exact HA|].
    assert (He : err r = None).
    { vm_compute in HA. injection HA as <-. reflexivity. }
    rewrite He in Hr. split; [exact He | exact (proj1 Hr)].
Defined.

End StateTransition.

(** ** downloader: the synchronisation orchestrator *)

Module Downloader.

(** *** Constants, errors and the data of a sync cycle *)

Definition MaxHeaderFetch : Z := 192.
Definition maxQueuedHeaders : Z := 32 * 1024.
Definition maxHeadersProcess : nat := 2048.
Definition fsHeaderCheckFrequency : Z := 100.
Definition fsHeaderSafetyNet : nat := 2048.
Definition fsHeaderForceVerify : Z := 24.
Definition fsMinFullBlocks : Z := 64.

Inductive error : Type :=
| errBusy | errUnknownPeer | errBadPeer | errStallingPeer | errNoPeers
| errTimeout | errEmptyHeaderSet | errPeersUnavailable | errInvalidAncestor
| errInvalidChain | errInvalidBlock | errInvalidBody | errInvalidReceipt
| errCancelBlockFetch | errCancelHeaderFetch | errCancelBodyFetch
| errCancelReceiptFetch | errCancelStateFetch | errCancelHeaderProcessing
| errCancelContentProcessing | errNoSyncActive | errTooOld.

Inductive SyncMode : Type := FullSync | FastSync | LightSync.

(** [common.Hash], 32 bytes, as the number they spell; the zero value
    [common.Hash{}] is 0. *)
Definition common_Hash : Type := N.
Definition emptyHash : common_Hash := 0%N.

(** A header, as far as the downloader looks into it. [Number] is a
    [*big.Int]; [Hash] stands for the method [Hash()]. *)
Record Header : Type := mkHeader {
  ParentHash : common_Hash;
  Number : Z;
  Hash : common_Hash
}.

(** [Number.Uint64()] and [Number.Int64()]: the low 64 bits. *)
Definition NumberU64 (h : Header) : Z := uint64 (Number h).
Definition NumberI64 (h : Header) : Z := int64 (Number h).

(** The chain interfaces of the downloader. [C] is the state of the local
    chain; every method that changes it returns the new state. *)
Class LightChain (C : Type) : Type := {
  HasHeader : C -> common_Hash -> Z -> bool;
  GetHeaderByHash : C -> common_Hash -> option Header;
  CurrentHeader : C -> Header;
  GetTd : C -> common_Hash -> Z -> Z;
  InsertHeaderChain : C -> list Header -> Z -> C * nat * option string;
  Rollback : C -> list common_Hash -> C
}.

(** [BlockChain] embeds [LightChain]; the head block and the head fast
    block are given by their headers. *)
Class BlockChain (C : Type) {LC : LightChain C} : Type := {
  HasBlock : C -> common_Hash -> Z -> bool;
  CurrentBlock : C -> Header;
  CurrentFastBlock : C -> Header
}.

(** What the header processor needs of the fetch queue (queue.go is not
    among the sources): the two pending counts, and [Schedule], of which
    only the number of accepted headers is looked at. *)
Class Queue (Q : Type) : Type := {
  PendingBlocks : Q -> Z;
  PendingReceipts : Q -> Z;
  Schedule : Q -> list Header -> Z -> Q * nat
}.

(** *** syncWithPeer: the pivot and the origin *)

(** The lines of [syncWithPeer] between the ancestor lookup and the start
    of the fetchers: from the height of the peer and the common ancestor
    [origin] they fix the pivot, the origin of the download and the
    [committed] flag. *)
Record syncStart : Type := mkSyncStart {
  pivot : Z;
  origin : Z;
  committed : Z
}.

Definition syncWithPeer_start (mode : SyncMode) (height origin0 : Z) : syncStart :=
  let '(pivot, origin) :=
    match mode with
    | FastSync =>
      if height <=? fsMinFullBlocks then (0, 0)
      else
        let pivot := uint64 (height - fsMinFullBlocks) in
        if pivot <=? origin0 then (pivot, uint64 (pivot - 1)) else (pivot, origin0)
    | _ => (0, origin0)
    end in
  let committed :=
    match mode with
    | FastSync => if pivot =? 0 then 1 else 0
    | _ => 1
    end in
  mkSyncStart pivot origin committed.

(** C3, as the code has it. In fast sync the pivot is the height of the
    peer less [fsMinFullBlocks], or 0 when the height is not above
    [fsMinFullBlocks]. When the pivot is not above the ancestor, the
    origin is set to one below the pivot (not one below the ancestor);
    when the height is not above [fsMinFullBlocks] the origin is reset to
    0; otherwise it stays. So the origin is below every pivot other than
    0. The other modes have no pivot and keep the origin. *)
Theorem syncWithPeer_start_spec (height origin0 : Z) :
  in_uint64 height -> in_uint64 origin0 ->
  let s := syncWithPeer_start FastSync height origin0 in
  (height <= fsMinFullBlocks -> pivot s = 0 /\ origin s = 0) /\
  (fsMinFullBlocks < height ->
     pivot s = height - fsMinFullBlocks /\
     (pivot s <= origin0 -> origin s = pivot s - 1) /\
     (origin0 < pivot s -> origin s = origin0)) /\
  (0 < pivot s -> origin s < pivot s) /\
  (forall mode, mode <> FastSync ->
     pivot (syncWithPeer_start mode height origin0) = 0 /\
     origin (syncWithPeer_start mode height origin0) = origin0).
Proof.
  intros Hh Ho. unfold in_uint64 in *. cbv zeta.
  unfold syncWithPeer_start, fsMinFullBlocks.
  destruct (height <=? 64) eqn:Hle.
  - apply Z.leb_le in Hle. cbn [pivot origin].
    repeat split; try lia.
    + destruct mode; [reflexivity | contradiction | reflexivity].
    + destruct mode; [reflexivity | contradiction | reflexivity].
  - apply Z.leb_gt in Hle.
    rewrite (uint64_small (height - 64)) by (unfold in_uint64; lia).
    destruct (height - 64 <=? origin0) eqn:Hp.
    + apply Z.leb_le in Hp. cbn [pivot origin].
      rewrite uint64_small by (unfold in_uint64; lia).
      repeat split; try lia.
      * destruct mode; [reflexivity | contradiction | reflexivity].
      * destruct mode; [reflexivity | contradiction | reflexivity].
    + apply Z.leb_gt in Hp. cbn [pivot origin].
      repeat split; try lia.
      * destruct mode; [reflexivity | contradiction | reflexivity].
      * destruct mode; [reflexivity | contradiction | reflexivity].
Qed.

Lemma syncWithPeer_start_spec_witness :
  pivot (syncWithPeer_start FastSync 1000 950) = 1000 - fsMinFullBlocks /\
  origin (syncWithPeer_start FastSync 1000 950) = 935.
Proof.
  destruct (syncWithPeer_start_spec 1000 950) as [_ [H _]];
    [unfold in_uint64; lia | unfold in_uint64; lia |].
  destruct H as [Hp [Ho _]]; [unfold fsMinFullBlocks; lia|].
  split; [exact Hp|]. rewrite Ho; [rewrite Hp; reflexivity|].
  rewrite Hp. unfold fsMinFullBlocks. lia.
Defined.

(** With the peer at 100 and the ancestor at 50 the pivot is 36, not above
    the ancestor; the origin becomes 35 and not 49. *)
Lemma syncWithPeer_start_origin_not_decremented :
  let s := syncWithPeer_start FastSync 100 50 in
  pivot s <= 50 /\ origin s = 35 /\ origin s <> 50 - 1.
Proof. cbv. repeat split; discriminate. Qed.

(** *** processHeaders: the header processor *)

(** What the processor reads from its two channels: the cancel channel
    fired, or a batch arrived on [headerProcCh]. A batch comes with what
    the processor observes of the cancel channel while it works through
    the chunks of the batch, one observation per chunk and none meaning
    that nothing fired: [cancelPoll] is the non-blocking poll at the head
    of the chunk loop, [cancelStalled] tells that the processor found the
    queue full and the cancel channel fired while it slept. *)
Record chunkObs : Type := mkObs {
  cancelPoll : bool;
  cancelStalled : bool
}.

Inductive procEvent : Type :=
| ProcCancel
| ProcHeaders (headers : list Header) (obs : list chunkObs).

Definition noCancel : chunkObs := mkObs false false.

(** The state the processor threads through its loop. *)
Record procState (C Q : Type) : Type := mkProc {
  chain : C;
  queue : Q;
  rollback : list Header;
  procOrigin : Z;
  gotHeaders : bool;
  syncStatsChainHeight : Z
}.
Arguments mkProc {C Q}.
Arguments chain {C Q}.
Arguments queue {C Q}.
Arguments rollback {C Q}.
Arguments procOrigin {C Q}.
Arguments gotHeaders {C Q}.
Arguments syncStatsChainHeight {C Q}.

(** How a step of the processor ends: it goes on, it returns (nil or an
    error), or the Go run time panics (an index out of range); the model
    does not follow a panic any further. *)
Inductive stepResult (S : Type) : Type :=
| Continue (st : S)
| Return (err : option error) (st : S)
| Panic.
Arguments Continue {S}.
Arguments Return {S}.
Arguments Panic {S}.

Definition dummyHeader : Header := mkHeader 0%N 0 0%N.

(** The verification frequency of a chunk: every 100th header, or every
    header when the last header of the chunk is less than
    [fsHeaderForceVerify] below the pivot or anywhere above. *)
Definition verifyFrequency (chunk : list Header) (pivot : Z) : Z :=
  if pivot <? uint64 (NumberU64 (last chunk dummyHeader) + fsHeaderForceVerify)
  then 1 else fsHeaderCheckFrequency.

(** [rollback[len(rollback)-fsHeaderSafetyNet:]] *)
Definition newest (n : nat) (l : list Header) : list Header :=
  skipn (length l - n) l.

Section Processor.

Context {C Q : Type} {LC : LightChain C} {BC : BlockChain C} {QU : Queue Q}.

Definition headerOnly (mode : SyncMode) : bool :=
  match mode with FastSync | LightSync => true | FullSync => false end.

Definition withContent (mode : SyncMode) : bool :=
  match mode with FullSync | FastSync => true | LightSync => false end.

(** The headers of the chunk that the local chain does not have yet. *)
Definition unknownHeaders (c : C) (chunk : list Header) : list Header :=
  filter (fun header => negb (HasHeader c (Hash header) (NumberU64 header))) chunk.

(** The header-only part of the loop body on one chunk: validation and
    bookkeeping of the uncertain headers (fast and light sync). *)
Definition importChunk (pivot : Z) (st : procState C Q) (chunk : list Header)
  : stepResult (procState C Q) :=
  let unknown := unknownHeaders (chain st) chunk in
  let frequency := verifyFrequency chunk pivot in
  let '(c', n, err) := InsertHeaderChain (chain st) chunk frequency in
  match err with
  | Some _ =>
    (* If some headers were inserted, add them too to the rollback list *)
    let rb := if (0 <? n)%nat then rollback st ++ firstn n chunk else rollback st in
    if (n <? length chunk)%nat
    then Return (Some errInvalidChain)
           (mkProc c' (queue st) rb (procOrigin st) (gotHeaders st) (syncStatsChainHeight st))
    else Panic (* chunk[n] in the log line *)
  | None =>
    (* All verifications passed, store newly found uncertain headers *)
    let rb := rollback st ++ unknown in
    let rb := if (fsHeaderSafetyNet <? length rb)%nat then newest fsHeaderSafetyNet rb else rb in
    Continue (mkProc c' (queue st) rb (procOrigin st) (gotHeaders st) (syncStatsChainHeight st))
  end.

(** The queue holds the allowed number of pending headers or receipts. *)
Definition queueFull (q : Q) : bool :=
  (maxQueuedHeaders <=? PendingBlocks q) || (maxQueuedHeaders <=? PendingReceipts q).

(** The content part of the loop body on one chunk: the headers are
    scheduled for the retrieval of bodies and receipts (full and fast
    sync), after the wait on a full queue. The wait ends by the cancel
    channel or, the fetchers having emptied the queue (which is not
    followed here), by going on. *)
Definition scheduleChunk (st : procState C Q) (chunk : list Header) (o : chunkObs)
  : stepResult (procState C Q) :=
  (* If we've reached the allowed number of pending headers, stall a bit *)
  if queueFull (queue st) && cancelStalled o
  then Return (Some errCancelHeaderProcessing) st
  else
    let '(q', inserts) := Schedule (queue st) chunk (procOrigin st) in
    let st' := mkProc (chain st) q' (rollback st) (procOrigin st) (gotHeaders st)
                      (syncStatsChainHeight st) in
    if (inserts =? length chunk)%nat then Continue st'
    else Return (Some errBadPeer) st'.

(** One turn of the loop [for len(headers) > 0] on its chunk. *)
Definition processChunk (mode : SyncMode) (pivot : Z) (st : procState C Q)
    (chunk : list Header) (o : chunkObs) : stepResult (procState C Q) :=
  if cancelPoll o then Return (Some errCancelHeaderProcessing) st
  else
    let r1 := if headerOnly mode then importChunk pivot st chunk else Continue st in
    match r1 with
    | Continue st1 =>
      let r2 := if withContent mode then scheduleChunk st1 chunk o else Continue st1 in
      match r2 with
      | Continue st2 =>
        Continue (mkProc (chain st2) (queue st2) (rollback st2)
                    (uint64 (procOrigin st2 + Z.of_nat (length chunk)))
                    (gotHeaders st2) (syncStatsChainHeight st2))
      | other => other
      end
    | other => other
    end.

(** The loop over the chunks of a batch. A chunk takes at least one header
    off the batch, so the length of the batch is enough fuel. *)
Fixpoint processChunks (fuel : nat) (mode : SyncMode) (pivot : Z)
    (st : procState C Q) (headers : list Header) (obs : list chunkObs)
  : stepResult (procState C Q) :=
  match headers with
  | [] => Continue st
  | _ :: _ =>
    match fuel with
    | O => Continue st
    | S fuel' =>
      let limit := Nat.min maxHeadersProcess (length headers) in
      let chunk := firstn limit headers in
      match processChunk mode pivot st chunk (hd noCancel obs) with
      | Continue st' => processChunks fuel' mode pivot st' (skipn limit headers) (tl obs)
      | other => other
      end
    end
  end.

(** The empty batch that ends the stream: the peer must have delivered
    what its total difficulty promised; if so the rollback list is
    dropped. *)
Definition finishStream (mode : SyncMode) (td : Z) (st : procState C Q)
  : stepResult (procState C Q) :=
  let head := CurrentBlock (chain st) in
  if match mode with LightSync => false | _ => true end
     && negb (gotHeaders st)
     && (GetTd (chain st) (Hash head) (NumberU64 head) <? td)
  then Return (Some errStallingPeer) st
  else
    let head := CurrentHeader (chain st) in
    if headerOnly mode && (GetTd (chain st) (Hash head) (NumberU64 head) <? td)
    then Return (Some errStallingPeer) st
    else Return None (mkProc (chain st) (queue st) [] (procOrigin st) (gotHeaders st)
                        (syncStatsChainHeight st)).

(** The body of [processHeaders] up to its return; [None] is a processor
    that still waits on its channels when the events end. *)
Fixpoint processLoop (evs : list procEvent) (mode : SyncMode) (pivot : Z) (td : Z)
    (st : procState C Q) : option (stepResult (procState C Q)) :=
  match evs with
  | [] => None
  | ProcCancel :: _ => Some (Return (Some errCancelHeaderProcessing) st)
  | ProcHeaders [] _ :: _ => Some (finishStream mode td st)
  | ProcHeaders headers obs :: evs' =>
    let st1 := mkProc (chain st) (queue st) (rollback st) (procOrigin st) true
                      (syncStatsChainHeight st) in
    match processChunks (length headers) mode pivot st1 headers obs with
    | Continue st2 =>
      let height := if syncStatsChainHeight st2 <? procOrigin st2
                    then uint64 (procOrigin st2 - 1) else syncStatsChainHeight st2 in
      processLoop evs' mode pivot td
        (mkProc (chain st2) (queue st2) (rollback st2) (procOrigin st2)
                (gotHeaders st2) height)
    | other => Some other
    end
  end.

(** The deferred function: a non-empty rollback list is flattened to its
    hashes and handed to [Rollback], whole. The result is the chain after
    it and the hashes that were rolled back, if any. *)
Definition deferredRollback (c : C) (rb : list Header) : C * option (list common_Hash) :=
  if (0 <? length rb)%nat
  then (Rollback c (map Hash rb), Some (map Hash rb))
  else (c, None).

(** A return of [processHeaders]: the error, the chain it leaves and the
    argument of the call of [Rollback], if there was one. *)
Record procReturn : Type := mkReturn {
  retErr : option error;
  retChain : C;
  rolledBack : option (list common_Hash)
}.

Inductive procOutcome : Type :=
| Returned (r : procReturn)
| Panicked
| Blocked.

Definition processHeaders (evs : list procEvent) (mode : SyncMode)
    (c : C) (q : Q) (height0 : Z) (origin pivot td : Z) : procOutcome :=
  match processLoop evs mode pivot td (mkProc c q [] origin false height0) with
  | None => Blocked
  | Some Panic => Panicked
  | Some (Continue st) => Blocked
  | Some (Return err st) =>
    let '(c', hs) := deferredRollback (chain st) (rollback st) in
    Returned (mkReturn err c' hs)
  end.

(** **** The rollback list *)

Definition setRollback (st : procState C Q) (c : C) (rb : list Header) : procState C Q :=
  mkProc c (queue st) rb (procOrigin st) (gotHeaders st) (syncStatsChainHeight st).

Lemma newest_length (n : nat) (l : list Header) :
  length (newest n l) = Nat.min n (length l).
Proof. unfold newest. rewrite length_skipn. lia. Qed.

Lemma importChunk_failure (pivot : Z) (st : procState C Q) (chunk : list Header)
    (c' : C) (n : nat) (e : string) :
  InsertHeaderChain (chain st) chunk (verifyFrequency chunk pivot) = (c', n, Some e) ->
  (n < length chunk)%nat ->
  importChunk pivot st chunk =
    Return (Some errInvalidChain) (setRollback st c' (rollback st ++ firstn n chunk)).
Proof.
  intros HI Hn. unfold importChunk, setRollback. rewrite HI.
  apply Nat.ltb_lt in Hn. rewrite Hn.
  destruct n as [|n]; [|reflexivity].
  cbn [Nat.ltb Nat.leb firstn]. rewrite app_nil_r. reflexivity.
Qed.

Lemma importChunk_success (pivot : Z) (st : procState C Q) (chunk : list Header)
    (c' : C) (n : nat) :
  InsertHeaderChain (chain st) chunk (verifyFrequency chunk pivot) = (c', n, None) ->
  importChunk pivot st chunk =
    Continue (setRollback st c'
      (let rb := rollback st ++ unknownHeaders (chain st) chunk in
       if (fsHeaderSafetyNet <? length rb)%nat then newest fsHeaderSafetyNet rb else rb)).
Proof.
  intros HI. unfold importChunk, setRollback. rewrite HI. reflexivity.
Qed.

(** Between two chunks the rollback list holds at most
    [fsHeaderSafetyNet] headers. *)
Definition rollbackBounded (st : procState C Q) : Prop :=
  (length (rollback st) <= fsHeaderSafetyNet)%nat.

Lemma importChunk_bounds (pivot : Z) (st : procState C Q) (chunk : list Header) :
  rollbackBounded st ->
  match importChunk pivot st chunk with
  | Continue st' => rollbackBounded st' /\ queue st' = queue st
  | Return err st' =>
    err = Some errInvalidChain /\
    (length (rollback st') < fsHeaderSafetyNet + length chunk)%nat
  | Panic => True
  end.
Proof.
  unfold rollbackBounded, importChunk. intros Hb.
  destruct (InsertHeaderChain (chain st) chunk (verifyFrequency chunk pivot))
    as [[c' n] [e|]].
  - destruct (n <? length chunk)%nat eqn:Hn; [|exact I].
    apply Nat.ltb_lt in Hn. split; [reflexivity|]. cbn [rollback].
    destruct (0 <? n)%nat.
    + rewrite length_app, length_firstn. lia.
    + lia.
  - cbn [rollback queue]. split; [|reflexivity].
    destruct (fsHeaderSafetyNet <? length (rollback st ++ unknownHeaders (chain st) chunk))%nat
      eqn:Hlen.
    + rewrite newest_length. lia.
    + apply Nat.ltb_ge in Hlen. exact Hlen.
Qed.

Lemma scheduleChunk_rollback (st : procState C Q) (chunk : list Header) (o : chunkObs) :
  match scheduleChunk st chunk o with
  | Continue st' => rollback st' = rollback st
  | Return err st' => err <> None /\ rollback st' = rollback st
  | Panic => False
  end.
Proof.
  unfold scheduleChunk. destruct (queueFull (queue st) && cancelStalled o).
  - split; [discriminate | reflexivity].
  - destruct (Schedule (queue st) chunk (procOrigin st)) as [q' inserts].
    destruct (inserts =? length chunk)%nat; cbn [rollback].
    + reflexivity.
    + split; [discriminate | reflexivity].
Qed.

Lemma processChunk_bounds (mode : SyncMode) (pivot : Z) (st : procState C Q)
    (chunk : list Header) (o : chunkObs) :
  rollbackBounded st ->
  match processChunk mode pivot st chunk o with
  | Continue st' => rollbackBounded st'
  | Return err st' =>
    err <> None /\ (length (rollback st') < fsHeaderSafetyNet + Nat.max 1 (length chunk))%nat
  | Panic => True
  end.
Proof.
  intros Hb. unfold processChunk.
  destruct (cancelPoll o).
  { split; [discriminate|]. unfold rollbackBounded in Hb. lia. }
  assert (H1 : match (if headerOnly mode then importChunk pivot st chunk else Continue st) with
               | Continue st' => rollbackBounded st'
               | Return err st' =>
                 err <> None /\
                 (length (rollback st') < fsHeaderSafetyNet + Nat.max 1 (length chunk))%nat
               | Panic => True
               end).
  { destruct (headerOnly mode); [|exact Hb].
    pose proof (importChunk_bounds pivot st chunk Hb) as HI.
    destruct (importChunk pivot st chunk) as [st'|err st'|]; [tauto | | exact I].
    destruct HI as [-> HI]. split; [discriminate | lia]. }
  destruct (if headerOnly mode then importChunk pivot st chunk else Continue st)
    as [st1|err st1|]; [| exact H1 | exact I].
  assert (H2 : match (if withContent mode then scheduleChunk st1 chunk o else Continue st1) with
               | Continue st' => rollback st' = rollback st1
               | Return err st' => err <> None /\ rollback st' = rollback st1
               | Panic => False
               end).
  { destruct (withContent mode); [apply scheduleChunk_rollback | reflexivity]. }
  destruct (if withContent mode then scheduleChunk st1 chunk o else Continue st1)
    as [st2|err st2|]; [| | contradiction].
  - unfold rollbackBounded in *. cbn [rollback]. rewrite H2. exact H1.
  - destruct H2 as [He Hr]. split; [exact He|]. rewrite Hr.
    unfold rollbackBounded in H1. lia.
Qed.

Lemma processChunks_bounds (fuel : nat) (mode : SyncMode) (pivot : Z)
    (st : procState C Q) (headers : list Header) (obs : list chunkObs) :
  rollbackBounded st ->
  match processChunks fuel mode pivot st headers obs with
  | Continue st' => rollbackBounded st'
  | Return err st' =>
    err <> None /\ (length (rollback st') < fsHeaderSafetyNet + maxHeadersProcess)%nat
  | Panic => True
  end.
Proof.
  revert st headers obs.
  induction fuel as [|fuel IH]; intros st headers obs Hb;
    destruct headers as [|h headers]; cbn [processChunks]; try exact Hb.
  set (limit := Nat.min maxHeadersProcess (length (h :: headers))).
  pose proof (processChunk_bounds mode pivot st (firstn limit (h :: headers))
                (hd noCancel obs) Hb) as HC.
  destruct (processChunk mode pivot st (firstn limit (h :: headers)) (hd noCancel obs))
    as [st'|err st'|].
  - apply IH. exact HC.
  - destruct HC as [He HC]. split; [exact He|].
    rewrite length_firstn in HC. unfold maxHeadersProcess in *.
    subst limit. unfold maxHeadersProcess in HC. lia.
  - exact I.
Qed.

Lemma finishStream_rollback (mode : SyncMode) (td : Z) (st : procState C Q) :
  match finishStream mode td st with
  | Return None st' => rollback st' = []
  | Return (Some _) st' => rollback st' = rollback st
  | _ => False
  end.
Proof.
  unfold finishStream.
  destruct (_ && _ && _); [reflexivity|].
  destruct (_ && _); reflexivity.
Qed.

Lemma processLoop_bounds (evs : list procEvent) (mode : SyncMode) (pivot td : Z)
    (st : procState C Q) :
  rollbackBounded st ->
  match processLoop evs mode pivot td st with
  | Some (Return err st') =>
    (err = None -> rollback st' = []) /\
    (length (rollback st') < fsHeaderSafetyNet + maxHeadersProcess)%nat
  | Some (Continue _) => False
  | _ => True
  end.
Proof.
  revert st. induction evs as [|ev evs IH]; intros st Hb; cbn [processLoop]; [exact I|].
  destruct ev as [|headers obs].
  - split; [discriminate|]. unfold rollbackBounded in Hb.
    unfold maxHeadersProcess. lia.
  - destruct headers as [|h headers].
    + pose proof (finishStream_rollback mode td st) as HF.
      destruct (finishStream mode td st) as [st'|[e|] st'|]; try contradiction.
      * split; [discriminate|]. rewrite HF. unfold rollbackBounded in Hb.
        unfold maxHeadersProcess. lia.
      * split; [intros _; exact HF|]. rewrite HF. cbn. lia.
    + match goal with |- context [processChunks ?f ?m ?p ?s ?hs ?o] =>
        pose proof (processChunks_bounds f m p s hs o Hb) as HC;
        destruct (processChunks f m p s hs o) as [st2|err st2|]
      end.
      * apply IH. exact HC.
      * destruct HC as [He HC]. split; [intros ->; contradiction | exact HC].
      * exact I.
Qed.

(** C1, as the code has it. In fast and light sync, when
    [InsertHeaderChain] fails on a chunk after [n] headers, it is those [n]
    headers before the offending one that are appended to the rollback
    list and the processor returns errInvalidChain; after a chunk that
    was inserted, its headers that were not known before are appended and
    the list is cut to its newest [fsHeaderSafetyNet] entries. When the
    processor returns, the whole rollback list, if not empty, is handed to
    [Rollback]; this happens only on an error return, and the list then
    holds less than [fsHeaderSafetyNet + maxHeadersProcess] headers. *)
Theorem processHeaders_rollback :
  (forall (pivot : Z) (st : procState C Q) (chunk : list Header) c' n e,
      InsertHeaderChain (chain st) chunk (verifyFrequency chunk pivot) = (c', n, Some e) ->
      (n < length chunk)%nat ->
      importChunk pivot st chunk =
        Return (Some errInvalidChain) (setRollback st c' (rollback st ++ firstn n chunk))) /\
  (forall (pivot : Z) (st : procState C Q) (chunk : list Header) c' n,
      InsertHeaderChain (chain st) chunk (verifyFrequency chunk pivot) = (c', n, None) ->
      rollbackBounded st ->
      exists rb,
        importChunk pivot st chunk = Continue (setRollback st c' rb) /\
        rb = newest fsHeaderSafetyNet (rollback st ++ unknownHeaders (chain st) chunk) /\
        (length rb <= fsHeaderSafetyNet)%nat) /\
  (forall evs mode c q height0 origin pivot td err st,
      processLoop evs mode pivot td (mkProc c q [] origin false height0)
        = Some (Return err st) ->
      processHeaders evs mode c q height0 origin pivot td =
        Returned (mkReturn err
                    (match rollback st with
                     | [] => chain st
                     | _ :: _ => Rollback (chain st) (map Hash (rollback st))
                     end)
                    (match rollback st with
                     | [] => None
                     | _ :: _ => Some (map Hash (rollback st))
                     end))) /\
  (forall evs mode c q height0 origin pivot td r hs,
      processHeaders evs mode c q height0 origin pivot td = Returned r ->
      rolledBack r = Some hs ->
      retErr r <> None /\
      (length hs < fsHeaderSafetyNet + maxHeadersProcess)%nat).
Proof.
  split; [exact importChunk_failure|]. split; [|split].
  - intros pivot st chunk c' n HI Hb.
    eexists. split; [apply (importChunk_success pivot st chunk c' n HI)|].
    cbv zeta.
    destruct (fsHeaderSafetyNet <? length (rollback st ++ unknownHeaders (chain st) chunk))%nat
      eqn:Hlen.
    + split; [reflexivity|]. rewrite newest_length. lia.
    + apply Nat.ltb_ge in Hlen. split; [|exact Hlen].
      unfold newest. replace (_ - _)%nat with 0%nat by lia. reflexivity.
  - intros evs mode c q height0 origin pivot td err st HL.
    unfold processHeaders. rewrite HL. unfold deferredRollback.
    destruct (rollback st); reflexivity.
  - intros evs mode c q height0 origin pivot td r hs HP Hhs.
    unfold processHeaders in HP.
    assert (Hb : rollbackBounded (mkProc c q [] origin false height0))
      by (unfold rollbackBounded; cbn; lia).
    pose proof (processLoop_bounds evs mode pivot td _ Hb) as HL.
    destruct (processLoop evs mode pivot td (mkProc c q [] origin false height0))
      as [[st|err st|]|]; try discriminate.
    destruct HL as [Hnil Hlen]. unfold deferredRollback in HP.
    destruct (0 <? length (rollback st))%nat eqn:Hne;
      injection HP as <-; cbn [rolledBack retErr] in *; [|discriminate].
    injection Hhs as <-. rewrite length_map. split; [|exact Hlen].
    intros ->. rewrite (Hnil eq_refl) in Hne. discriminate.
Qed.

End Processor.

(** **** The verification frequency *)

Lemma verifyFrequency_values (chunk : list Header) (pivot : Z) :
  verifyFrequency chunk pivot = 1 \/ verifyFrequency chunk pivot = fsHeaderCheckFrequency.
Proof.
  unfold verifyFrequency. destruct (pivot <? _); [left | right]; reflexivity.
Qed.

Lemma verifyFrequency_one (chunk : list Header) (pivot : Z) :
  0 <= Number (last chunk dummyHeader) ->
  Number (last chunk dummyHeader) + fsHeaderForceVerify < 2 ^ 64 ->
  (verifyFrequency chunk pivot = 1 <->
   pivot - fsHeaderForceVerify < Number (last chunk dummyHeader)).
Proof.
  intros H0 H1. unfold verifyFrequency, NumberU64, fsHeaderForceVerify in *.
  rewrite (uint64_small (Number _)) by (unfold in_uint64; lia).
  rewrite uint64_small by (unfold in_uint64; lia).
  destruct (pivot <? Number (last chunk dummyHeader) + 24) eqn:Hc.
  - apply Z.ltb_lt in Hc. split; [lia | reflexivity].
  - apply Z.ltb_ge in Hc. unfold fsHeaderCheckFrequency. split; [discriminate | lia].
Qed.

(** C4, as the code has it. A chunk is inserted with frequency 1 or
    100. It is 1 whenever the last header of the chunk lies less than
    [fsHeaderForceVerify] below the pivot or anywhere above it, with no
    upper end, and 100 when the last header lies more than
    [fsHeaderForceVerify] below the pivot. So in a chunk of ascending
    numbers every header above [pivot - 24], in particular every header
    from [pivot - 23] to [pivot + 24], is inserted with frequency 1, and
    a chunk inserted with frequency 100 lies at or below [pivot - 24]. *)
Theorem verifyFrequency_spec (chunk : list Header) (pivot : Z) :
  0 <= Number (last chunk dummyHeader) ->
  Number (last chunk dummyHeader) + fsHeaderForceVerify < 2 ^ 64 ->
  Forall (fun h => Number h <= Number (last chunk dummyHeader)) chunk ->
  (verifyFrequency chunk pivot = 1 \/ verifyFrequency chunk pivot = fsHeaderCheckFrequency) /\
  (pivot - fsHeaderForceVerify < Number (last chunk dummyHeader) ->
   verifyFrequency chunk pivot = 1) /\
  (Number (last chunk dummyHeader) < pivot - fsHeaderForceVerify ->
   verifyFrequency chunk pivot = fsHeaderCheckFrequency) /\
  (forall h, In h chunk -> pivot - fsHeaderForceVerify < Number h ->
             verifyFrequency chunk pivot = 1) /\
  (verifyFrequency chunk pivot = fsHeaderCheckFrequency ->
   Forall (fun h => Number h <= pivot - fsHeaderForceVerify) chunk).
Proof.
  intros H0 H1 Hasc.
  pose proof (verifyFrequency_one chunk pivot H0 H1) as Hone.
  split; [apply verifyFrequency_values|]. split; [apply Hone|]. split; [|split].
  - intros Hlt. destruct (verifyFrequency_values chunk pivot) as [H|H]; [|exact H].
    apply Hone in H. lia.
  - intros h Hin Hh. apply Hone.
    rewrite Forall_forall in Hasc. specialize (Hasc h Hin). lia.
  - intros H100.
    assert (Hlast : ~ pivot - fsHeaderForceVerify < Number (last chunk dummyHeader)).
    { intros Hlt. apply Hone in Hlt. rewrite Hlt in H100. discriminate. }
    rewrite Forall_forall in *. intros h Hin. specialize (Hasc h Hin). lia.
Qed.

Lemma verifyFrequency_spec_witness :
  verifyFrequency [mkHeader 4%N 990 5%N; mkHeader 5%N 991 6%N] 1000 = 1 /\
  verifyFrequency [mkHeader 4%N 969 5%N; mkHeader 5%N 970 6%N] 1000 = 100.
Proof.
  split.
  - destruct (verifyFrequency_spec [mkHeader 4%N 990 5%N; mkHeader 5%N 991 6%N] 1000)
      as [_ [Hone _]]; [cbn; lia | cbn; lia | repeat constructor; cbn; lia |].
    apply Hone. cbn. unfold fsHeaderForceVerify. lia.
  - destruct (verifyFrequency_spec [mkHeader 4%N 969 5%N; mkHeader 5%N 970 6%N] 1000)
      as [_ [_ [H100 _]]]; [cbn; lia | cbn; lia | repeat constructor; cbn; lia |].
    apply H100. cbn. unfold fsHeaderForceVerify. lia.
Defined.

(** A chunk that ends 64 blocks above the pivot, which is not within 24
    of it, is inserted with frequency 1 all the same. *)
Lemma verifyFrequency_above_pivot :
  let h := mkHeader 4%N 1064 5%N in
  ~ (1000 - fsHeaderForceVerify <= Number h <= 1000 + fsHeaderForceVerify) /\
  verifyFrequency [h] 1000 = 1 /\
  verifyFrequency [h] 1000 <> fsHeaderCheckFrequency.
Proof.
  cbn. split; [unfold fsHeaderForceVerify; lia|]. split; [reflexivity | discriminate].
Qed.

(** The chunk that ends exactly [fsHeaderForceVerify] below the pivot
    still gets frequency 100; light sync, whose pivot is 0, always gets 1. *)
Example verifyFrequency_boundary :
  verifyFrequency [mkHeader 4%N 976 5%N] 1000 = 100 /\
  verifyFrequency [mkHeader 4%N 977 5%N] 1000 = 1 /\
  verifyFrequency [mkHeader 4%N 1 5%N] 0 = 1.
Proof. repeat split. Qed.

(** *** findAncestor: the common ancestor and its floor *)

(** What [findAncestor] receives in its [select] statements, in the order
    of arrival: the cancel channel fires, a header packet of some peer
    arrives, the timer of the current request expires, or a body or
    receipt packet arrives out of bounds. *)
Inductive chanEvent : Type :=
| EvCancel
| EvHeaders (peer : string) (headers : list Header)
| EvTimeout
| EvBodies
| EvReceipts.

(** How a lookup ends: with a value, with an error, with a nil
    dereference, or still waiting when the events end. *)
Inductive outcome (A : Type) : Type :=
| Found (a : A)
| Failed (e : error)
| Crashed
| Waiting.
Arguments Found {A}.
Arguments Failed {A}.
Arguments Crashed {A}.
Arguments Waiting {A}.

(** The result of the scan of the head headers: nothing known, a known
    header, or a peer that lied about its head. *)
Inductive scanResult : Type :=
| ScanNone
| ScanKnown (number : Z) (hash : common_Hash)
| ScanLied.

Section Ancestor.

(** [params.EpochDuration] is not among the sources. *)
Variable EpochDuration : Z.

Definition MaxForkAncestry : Z := 3 * EpochDuration.

Context {C : Type} {LC : LightChain C} {BC : BlockChain C}.

(** [ceil]: the local head of the mode. *)
Definition localHead (mode : SyncMode) (c : C) : Z :=
  match mode with
  | FullSync => NumberU64 (CurrentBlock c)
  | FastSync => NumberU64 (CurrentFastBlock c)
  | LightSync => NumberU64 (CurrentHeader c)
  end.

(** [floor]: -1, or [int64(ceil - MaxForkAncestry)]. *)
Definition ancestorFloor (ceil : Z) : Z :=
  if MaxForkAncestry <=? ceil then int64 (uint64 (ceil - MaxForkAncestry)) else -1.

Definition searchHead (ceil height : Z) : Z :=
  if height <? ceil then height else ceil.

Definition scanFrom (head : Z) : Z :=
  let from := int64 (int64 head - MaxHeaderFetch) in
  if from <? 0 then 0 else from.

Definition scanLimit : Z := 2 * MaxHeaderFetch / 16.

(** The request for the head headers: origin, count, skip, reverse. *)
Definition headRequest (ceil from : Z) : Z * Z * Z * bool :=
  let count := 1 + Z.quot (int64 (int64 ceil - from)) 16 in
  let count := if scanLimit <? count then scanLimit else count in
  (uint64 from, count, 15, false).

Definition known (mode : SyncMode) (c : C) (h : Header) : bool :=
  match mode with
  | FullSync => HasBlock c (Hash h) (NumberU64 h)
  | _ => HasHeader c (Hash h) (NumberU64 h)
  end.

(** The reply conforms to the request: header [i] has number
    [from + i * 16]. *)
Fixpoint conforms (headers : list Header) (i : Z) (from : Z) : bool :=
  match headers with
  | [] => true
  | h :: headers' =>
    (NumberI64 h =? int64 (from + int64 (i * 16))) && conforms headers' (i + 1) from
  end.

(** The loop over the reply, newest first; [ihs] are the headers with
    their indices, in reverse. *)
Fixpoint scanHeaders (mode : SyncMode) (c : C) (from ceil height : Z)
    (ihs : list (Z * Header)) : scanResult :=
  match ihs with
  | [] => ScanNone
  | (i, h) :: ihs' =>
    (* Skip any headers that underflow/overflow our requested set *)
    if (NumberI64 h <? from) || (ceil <? NumberU64 h)
    then scanHeaders mode c from ceil height ihs'
    else if known mode c h then
      (* If every header is known, even future ones, the peer lied *)
      if (height <? NumberU64 h) && (i =? scanLimit - 1) then ScanLied
      else ScanKnown (NumberU64 h) (Hash h)
    else scanHeaders mode c from ceil height ihs'
  end.

Definition indexed (headers : list Header) : list (Z * Header) :=
  combine (map Z.of_nat (seq 0 (length headers))) headers.

(** The wait for the reply to the head request. With the result come the
    events that are left. *)
Fixpoint awaitHead (evs : list chanEvent) (mode : SyncMode) (c : C) (p : string)
    (from ceil height : Z) : outcome (scanResult * list chanEvent) :=
  match evs with
  | [] => Waiting
  | EvCancel :: _ => Failed errCancelHeaderFetch
  | EvHeaders peer headers :: evs' =>
    if negb (String.eqb peer p) then awaitHead evs' mode c p from ceil height
    else if (length headers =? 0)%nat then Failed errEmptyHeaderSet
    else if negb (conforms headers 0 from) then Failed errInvalidChain
    else
      match scanHeaders mode c from ceil height (rev (indexed headers)) with
      | ScanLied => Failed errStallingPeer
      | r => Found (r, evs')
      end
  | EvTimeout :: _ => Failed errTimeout
  | EvBodies :: evs' => awaitHead evs' mode c p from ceil height
  | EvReceipts :: evs' => awaitHead evs' mode c p from ceil height
  end.

(** The binary search over the local chain. Every turn of the outer loop
    waits for the reply to its request, so the search is a recursion on
    the events. *)
Fixpoint searchAncestor (evs : list chanEvent) (mode : SyncMode) (c : C) (p : string)
    (start end_ : Z) : outcome Z :=
  if uint64 (start + 1) <? end_ then
    (* Split our chain interval in two, and request the hash to cross check *)
    let check := uint64 (start + end_) / 2 in
    match evs with
    | [] => Waiting
    | EvCancel :: _ => Failed errCancelHeaderFetch
    | EvHeaders peer headers :: evs' =>
      if negb (String.eqb peer p) then searchAncestor evs' mode c p start end_
      else
        match headers with
        | [h] =>
          if negb (known mode c h) then searchAncestor evs' mode c p start check
          else
            match GetHeaderByHash c (Hash h) with
            | None => Crashed
            | Some header =>
              if NumberU64 header =? check
              then searchAncestor evs' mode c p check end_
              else Failed errBadPeer
            end
        | _ => Failed errBadPeer
        end
    | EvTimeout :: _ => Failed errTimeout
    | EvBodies :: evs' => searchAncestor evs' mode c p start end_
    | EvReceipts :: evs' => searchAncestor evs' mode c p start end_
    end
  else Found start.

(** Where the binary search starts: 0, or the floor when it is positive. *)
Definition searchStart (floor : Z) : Z :=
  if 0 <? floor then uint64 floor else 0.

(** Ensure valid ancestry and return. *)
Definition checkFloor (number floor : Z) : outcome Z :=
  if int64 number <=? floor then Failed errInvalidAncestor else Found number.

Definition findAncestor (evs : list chanEvent) (mode : SyncMode) (c : C) (p : string)
    (height : Z) : outcome Z :=
  (* Figure out the valid ancestor range to prevent rewrite attacks *)
  let ceil := localHead mode c in
  let floor := ancestorFloor ceil in
  let head := searchHead ceil height in
  let from := scanFrom head in
  match awaitHead evs mode c p from ceil height with
  | Failed e => Failed e
  | Crashed => Crashed
  | Waiting => Waiting
  | Found (scan, evs') =>
    let '(number, hash) :=
      match scan with ScanKnown number hash => (number, hash) | _ => (0, emptyHash) end in
    (* If the head fetch already found an ancestor, return *)
    if negb (hash =? emptyHash)%N then checkFloor number floor
    else
      (* Ancestor not found, we need to binary search over our chain *)
      match searchAncestor evs' mode c p (searchStart floor) head with
      | Found start => checkFloor start floor
      | other => other
      end
  end.

(** The ancestor that the two phases locate, before it is held against
    the floor. *)
Definition locateAncestor (evs : list chanEvent) (mode : SyncMode) (c : C) (p : string)
    (height : Z) : outcome Z :=
  let ceil := localHead mode c in
  let head := searchHead ceil height in
  match awaitHead evs mode c p (scanFrom head) ceil height with
  | Failed e => Failed e
  | Crashed => Crashed
  | Waiting => Waiting
  | Found (ScanKnown number hash, evs') =>
    if negb (hash =? emptyHash)%N then Found number
    else searchAncestor evs' mode c p (searchStart (ancestorFloor ceil)) head
  | Found (_, evs') =>
    searchAncestor evs' mode c p (searchStart (ancestorFloor ceil)) head
  end.

(** **** The floor of the ancestor *)

Lemma localHead_range (mode : SyncMode) (c : C) : in_uint64 (localHead mode c).
Proof. destruct mode; apply uint64_range. Qed.

Lemma ancestorFloor_cases (ceil : Z) :
  0 <= MaxForkAncestry -> 0 <= ceil < 2 ^ 63 ->
  (MaxForkAncestry <= ceil /\ ancestorFloor ceil = ceil - MaxForkAncestry) \/
  (ceil < MaxForkAncestry /\ ancestorFloor ceil = -1).
Proof.
  intros HM Hc. unfold ancestorFloor.
  destruct (MaxForkAncestry <=? ceil) eqn:E.
  - apply Z.leb_le in E. left. split; [exact E|].
    rewrite uint64_small by (unfold in_uint64; lia).
    apply int64_small. lia.
  - apply Z.leb_gt in E. right. split; [exact E | reflexivity].
Qed.

Lemma searchStart_floor (ceil : Z) :
  0 <= MaxForkAncestry -> 0 <= ceil < 2 ^ 63 ->
  searchStart (ancestorFloor ceil) = Z.max 0 (ceil - MaxForkAncestry).
Proof.
  intros HM Hc. unfold searchStart.
  destruct (ancestorFloor_cases ceil HM Hc) as [[Hle ->] | [Hlt ->]].
  - destruct (0 <? ceil - MaxForkAncestry) eqn:E.
    + apply Z.ltb_lt in E. rewrite uint64_small by (unfold in_uint64; lia). lia.
    + apply Z.ltb_ge in E. lia.
  - change (0 <? -1) with false. cbv iota. lia.
Qed.

Lemma scanHeaders_known (mode : SyncMode) (c : C) (from ceil height : Z)
    (ihs : list (Z * Header)) (n : Z) (h : common_Hash) :
  scanHeaders mode c from ceil height ihs = ScanKnown n h -> 0 <= n <= ceil.
Proof.
  induction ihs as [|[i hd] ihs IH]; cbn [scanHeaders]; [discriminate|].
  destruct (NumberI64 hd <? from) eqn:E1; cbn [orb]; [exact IH|].
  destruct (ceil <? NumberU64 hd) eqn:E2; [exact IH|].
  destruct (known mode c hd); [|exact IH].
  destruct ((height <? NumberU64 hd) && (i =? scanLimit - 1)); [discriminate|].
  intros H. injection H as <- _. apply Z.ltb_ge in E2.
  pose proof (uint64_range (Number hd)) as Hr. unfold in_uint64, NumberU64 in *. lia.
Qed.

Lemma awaitHead_known (evs : list chanEvent) (mode : SyncMode) (c : C) (p : string)
    (from ceil height : Z) (n : Z) (h : common_Hash) (evs' : list chanEvent) :
  awaitHead evs mode c p from ceil height = Found (ScanKnown n h, evs') ->
  0 <= n <= ceil.
Proof.
  induction evs as [|ev evs IH]; cbn [awaitHead]; [discriminate|].
  destruct ev as [|peer headers| | |]; try discriminate; try exact IH.
  destruct (negb (String.eqb peer p)); [exact IH|].
  destruct (length headers =? 0)%nat; [discriminate|].
  destruct (negb (conforms headers 0 from)); [discriminate|].
  destruct (scanHeaders mode c from ceil height (rev (indexed headers))) as [|n' h'|] eqn:ES;
    try discriminate.
  intros H. injection H as <- _ _. exact (scanHeaders_known _ _ _ _ _ _ _ _ ES).
Qed.

Lemma searchAncestor_range (evs : list chanEvent) (mode : SyncMode) (c : C) (p : string)
    (B : Z) :
  B < 2 ^ 63 ->
  forall start end_ n,
    0 <= start <= B -> 0 <= end_ <= B ->
    searchAncestor evs mode c p start end_ = Found n ->
    start <= n <= B.
Proof.
  intros HB. induction evs as [|ev evs IH]; intros start end_ n Hs He;
    cbn [searchAncestor]; rewrite (uint64_small (start + 1)) by (unfold in_uint64; lia);
    destruct (start + 1 <? end_) eqn:Elt;
    try (intros H; injection H as <-; lia); try discriminate.
  apply Z.ltb_lt in Elt.
  rewrite (uint64_small (start + end_)) by (unfold in_uint64; lia).
  assert (Hchk : start <= (start + end_) / 2 <= B).
  { split.
    - apply Z.div_le_lower_bound; lia.
    - apply Z.div_le_upper_bound; lia. }
  destruct ev as [|peer headers| | |]; try discriminate;
    try (apply IH; assumption).
  destruct (negb (String.eqb peer p)); [apply IH; assumption|].
  destruct headers as [|h [|h2 headers]]; try discriminate.
  destruct (negb (known mode c h)).
  - apply IH; [assumption | lia].
  - destruct (GetHeaderByHash c (Hash h)) as [header|]; [|discriminate].
    destruct (NumberU64 header =? (start + end_) / 2); [|discriminate].
    intros H. apply IH in H; lia.
Qed.

Lemma findAncestor_locate (evs : list chanEvent) (mode : SyncMode) (c : C) (p : string)
    (height : Z) :
  findAncestor evs mode c p height =
    match locateAncestor evs mode c p height with
    | Found n => checkFloor n (ancestorFloor (localHead mode c))
    | Failed e => Failed e
    | Crashed => Crashed
    | Waiting => Waiting
    end.
Proof.
  unfold findAncestor, locateAncestor. cbv zeta.
  destruct (awaitHead evs mode c p (scanFrom (searchHead (localHead mode c) height))
              (localHead mode c) height) as [[scan evs']|e| |]; try reflexivity.
  destruct scan as [|number hash|].
  - cbn [N.eqb emptyHash negb].
    destruct (searchAncestor evs' mode c p _ _); reflexivity.
  - destruct (negb (hash =? emptyHash)%N); [reflexivity|].
    destruct (searchAncestor evs' mode c p _ _); reflexivity.
  - cbn [N.eqb emptyHash negb].
    destruct (searchAncestor evs' mode c p _ _); reflexivity.
Qed.

Lemma locateAncestor_range (evs : list chanEvent) (mode : SyncMode) (c : C) (p : string)
    (height n : Z) :
  0 <= MaxForkAncestry -> localHead mode c < 2 ^ 63 -> in_uint64 height ->
  locateAncestor evs mode c p height = Found n ->
  0 <= n <= localHead mode c.
Proof.
  intros HM Hc Hh. pose proof (localHead_range mode c) as Hr.
  unfold in_uint64 in *. unfold locateAncestor. cbv zeta.
  assert (Hsearch : forall evs',
    searchAncestor evs' mode c p (searchStart (ancestorFloor (localHead mode c)))
      (searchHead (localHead mode c) height) = Found n ->
    0 <= n <= localHead mode c).
  { intros evs' H.
    apply (searchAncestor_range evs' mode c p (localHead mode c) Hc) in H.
    - rewrite searchStart_floor in H by lia. lia.
    - rewrite searchStart_floor by lia. lia.
    - unfold searchHead. destruct (height <? localHead mode c) eqn:E; [|lia].
      apply Z.ltb_lt in E. lia. }
  destruct (awaitHead evs mode c p (scanFrom (searchHead (localHead mode c) height))
              (localHead mode c) height) as [[scan evs']|e| |] eqn:EA; try discriminate.
  destruct scan as [|number hash|]; try apply Hsearch.
  destruct (negb (hash =? emptyHash)%N); [|apply Hsearch].
  intros H. injection H as <-. exact (awaitHead_known _ _ _ _ _ _ _ _ _ _ EA).
Qed.

(** C2. In every sync mode the reorganisation depth is bounded by
    [max 0 (local head - MaxForkAncestry)]: the binary search starts
    there, an ancestor that the head scan or the binary search locates
    below it makes [findAncestor] return errInvalidAncestor instead, and
    an ancestor that [findAncestor] returns is the located one and is not
    below it. (Block numbers are taken below 2^63, as the conversions of
    the head to int64 suppose.) *)
Theorem findAncestor_floor (mode : SyncMode) (c : C) :
  0 <= MaxForkAncestry ->
  localHead mode c < 2 ^ 63 ->
  let bound := Z.max 0 (localHead mode c - MaxForkAncestry) in
  searchStart (ancestorFloor (localHead mode c)) = bound /\
  (forall evs p height n,
      in_uint64 height ->
      locateAncestor evs mode c p height = Found n ->
      n < bound ->
      findAncestor evs mode c p height = Failed errInvalidAncestor) /\
  (forall evs p height n,
      in_uint64 height ->
      findAncestor evs mode c p height = Found n ->
      locateAncestor evs mode c p height = Found n /\
      bound <= n /\ localHead mode c - MaxForkAncestry < n).
Proof.
  intros HM Hc bound. pose proof (localHead_range mode c) as Hr.
  unfold in_uint64 in Hr.
  assert (Hceil : 0 <= localHead mode c < 2 ^ 63) by lia.
  split; [apply searchStart_floor; assumption|]. split.
  - intros evs p height n Hh Hloc Hn.
    pose proof (locateAncestor_range evs mode c p height n HM Hc Hh Hloc) as Hrange.
    rewrite findAncestor_locate, Hloc. unfold checkFloor.
    rewrite int64_small by lia.
    destruct (ancestorFloor_cases _ HM Hceil) as [[Hle ->] | [Hlt ->]].
    + assert (E : (n <=? localHead mode c - MaxForkAncestry) = true)
        by (apply Z.leb_le; subst bound; lia).
      rewrite E. reflexivity.
    + subst bound. lia.
  - intros evs p height n Hh Hfind.
    rewrite findAncestor_locate in Hfind.
    destruct (locateAncestor evs mode c p height) as [m|e| |] eqn:Hloc; try discriminate.
    pose proof (locateAncestor_range evs mode c p height m HM Hc Hh Hloc) as Hrange.
    unfold checkFloor in Hfind. rewrite int64_small in Hfind by lia.
    destruct (m <=? ancestorFloor (localHead mode c)) eqn:E; [discriminate|].
    injection Hfind as <-. apply Z.leb_gt in E.
    split; [reflexivity|].
    destruct (ancestorFloor_cases _ HM Hceil) as [[Hle Hf] | [Hlt Hf]];
      rewrite Hf in E; subst bound; lia.
Qed.

End Ancestor.

(** *** synchronise: one cycle at a time *)

(** A call of [synchronise] is followed through its two atomic accesses to
    [d.synchronising]: the compare-and-swap at its entry and the deferred
    store at its end. Between them lies the cycle, of which only the
    result is kept (the notification, the resets of queue, peers and
    channels, the master peer and [syncWithPeer] do not touch
    [d.synchronising]). *)
Inductive callState : Type :=
| Entered (id : string) (hash : common_Hash)  (* called, not yet at the compare-and-swap *)
| Cycling                                     (* past it: the cycle of this call runs *)
| Finished (err : option error).              (* returned *)

(** [synchroniseMock]: a replacement for [synchronise] during testing;
    nil is [None]. *)
Definition mockFn : Type := option (string -> common_Hash -> option error).

(** The downloader as far as [synchronise] is concerned, with the calls
    that were made on it. *)
Record syncSystem : Type := mkSys {
  synchronising : Z;
  calls : list callState
}.

(** One atomic step of a call. [result] is what the cycle returns when
    the step is the end of a cycle. *)
Definition stepCall (mock : mockFn) (flag : Z) (st : callState) (result : option error)
  : Z * callState :=
  match st with
  | Entered id hash =>
    match mock with
    | Some f => (flag, Finished (f id hash))
    | None =>
      (* atomic.CompareAndSwapInt32(&d.synchronising, 0, 1) *)
      if flag =? 0 then (1, Cycling) else (flag, Finished (Some errBusy))
    end
  | Cycling =>
    (* defer atomic.StoreInt32(&d.synchronising, 0) *)
    (0, Finished result)
  | Finished err => (flag, Finished err)
  end.

Fixpoint setCall (i : nat) (st : callState) (l : list callState) : list callState :=
  match l, i with
  | [], _ => []
  | _ :: l', O => st :: l'
  | x :: l', S i' => x :: setCall i' st l'
  end.

(** What the scheduler does next: a new call arrives, or call [i] takes
    its next atomic step. *)
Inductive action : Type :=
| Call (id : string) (hash : common_Hash)
| Step (i : nat) (result : option error).

Definition step (mock : mockFn) (sys : syncSystem) (a : action) : syncSystem :=
  match a with
  | Call id hash => mkSys (synchronising sys) (calls sys ++ [Entered id hash])
  | Step i result =>
    match nth_error (calls sys) i with
    | None => sys
    | Some st =>
      let '(flag, st') := stepCall mock (synchronising sys) st result in
      mkSys flag (setCall i st' (calls sys))
    end
  end.

Definition run (mock : mockFn) (sys : syncSystem) (schedule : list action) : syncSystem :=
  fold_left (step mock) schedule sys.

(** The downloader after [New]: no cycle, no call. *)
Definition idle : syncSystem := mkSys 0 [].

Definition isCycling (st : callState) : bool :=
  match st with Cycling => true | _ => false end.

Definition isBusy (st : callState) : bool :=
  match st with Finished (Some errBusy) => true | _ => false end.

(** The number of cycles that are active. *)
Definition cycling (sys : syncSystem) : nat :=
  length (filter isCycling (calls sys)).

(** [d.synchronising] counts the active cycles, and there is at most one. *)
Definition oneCycle (sys : syncSystem) : Prop :=
  synchronising sys = Z.of_nat (cycling sys) /\ (cycling sys <= 1)%nat.

Definition countIf (b : bool) : nat := if b then 1%nat else 0%nat.

Lemma cycling_setCall (l : list callState) (i : nat) (st st' : callState) :
  nth_error l i = Some st ->
  (length (filter isCycling (setCall i st' l)) + countIf (isCycling st) =
   length (filter isCycling l) + countIf (isCycling st'))%nat.
Proof.
  revert i. induction l as [|x l IH]; intros [|i] H; cbn in H; try discriminate.
  - injection H as ->. cbn [setCall filter].
    destruct (isCycling st), (isCycling st'); cbn; lia.
  - cbn [setCall filter]. specialize (IH i H).
    destruct (isCycling x); cbn [length]; lia.
Qed.

Lemma cycling_nth (l : list callState) (j : nat) :
  nth_error l j = Some Cycling -> (1 <= length (filter isCycling l))%nat.
Proof.
  revert j. induction l as [|x l IH]; intros [|j] H; cbn in H; try discriminate.
  - injection H as ->. cbn. lia.
  - cbn [filter]. specialize (IH j H). destruct (isCycling x); cbn [length]; lia.
Qed.

Lemma step_oneCycle (mock : mockFn) (sys : syncSystem) (a : action) :
  oneCycle sys -> oneCycle (step mock sys a).
Proof.
  unfold oneCycle, cycling. intros [Hflag Hone].
  destruct a as [id hash|i result]; cbn [step].
  - cbn [calls synchronising]. rewrite filter_app. cbn [filter isCycling].
    rewrite app_nil_r. split; assumption.
  - destruct (nth_error (calls sys) i) as [st|] eqn:Hi; [|split; assumption].
    destruct st as [id hash| |err]; cbn [stepCall].
    + destruct mock as [f|].
      * cbn [calls synchronising].
        pose proof (cycling_setCall _ _ _ (Finished (f id hash)) Hi) as Hc.
        cbn [isCycling countIf] in Hc. rewrite Nat.add_0_r in Hc. rewrite Hc.
        rewrite Nat.add_0_r. split; assumption.
      * destruct (synchronising sys =? 0) eqn:E; cbn [calls synchronising].
        -- apply Z.eqb_eq in E.
           pose proof (cycling_setCall _ _ _ Cycling Hi) as Hc.
           cbn [isCycling countIf] in Hc. split; lia.
        -- pose proof (cycling_setCall _ _ _ (Finished (Some errBusy)) Hi) as Hc.
           cbn [isCycling countIf] in Hc. split; lia.
    + cbn [calls synchronising].
      pose proof (cycling_setCall _ _ _ (Finished result) Hi) as Hc.
      cbn [isCycling countIf] in Hc. split; lia.
    + cbn [calls synchronising].
      pose proof (cycling_setCall _ _ _ (Finished err) Hi) as Hc.
      cbn [isCycling countIf] in Hc. split; lia.
Qed.

Lemma run_oneCycle (mock : mockFn) (schedule : list action) (sys : syncSystem) :
  oneCycle sys -> oneCycle (run mock sys schedule).
Proof.
  unfold run. revert sys. induction schedule as [|a schedule IH]; intros sys H; cbn.
  - exact H.
  - apply IH. apply step_oneCycle. exact H.
Qed.

(** C8. In every state that the calls of [synchronise] can reach, at most
    one cycle is active. A call that comes to its entry check while the
    cycle of another call is in progress returns errBusy, and starts no
    cycle: the flag and the other calls are as before. Of two calls of
    which the second comes to its entry check before the first has ended,
    whichever goes first runs its cycle and the other returns errBusy,
    so exactly one of them does. *)
Theorem synchronise_one_at_a_time :
  (forall mock schedule, oneCycle (run mock idle schedule)) /\
  (forall schedule i j id hash result,
      let sys := run None idle schedule in
      nth_error (calls sys) i = Some (Entered id hash) ->
      nth_error (calls sys) j = Some Cycling ->
      step None sys (Step i result) =
        mkSys (synchronising sys) (setCall i (Finished (Some errBusy)) (calls sys)) /\
      cycling (step None sys (Step i result)) = cycling sys) /\
  (forall id1 hash1 id2 hash2 r1 r2 r,
      r <> Some errBusy ->
      let first := run None idle
        [Call id1 hash1; Call id2 hash2; Step 0 r1; Step 1 r2; Step 0 r] in
      let second := run None idle
        [Call id1 hash1; Call id2 hash2; Step 1 r1; Step 0 r2; Step 1 r] in
      calls first = [Finished r; Finished (Some errBusy)] /\
      calls second = [Finished (Some errBusy); Finished r] /\
      length (filter isBusy (calls first)) = 1%nat /\
      length (filter isBusy (calls second)) = 1%nat).
Proof.
  split; [|split].
  - intros mock schedule. apply run_oneCycle. unfold oneCycle, cycling. cbn. split; lia.
  - intros schedule i j id hash result sys Hi Hj.
    assert (Hinv : oneCycle sys).
    { apply run_oneCycle. unfold oneCycle, cycling. cbn. split; lia. }
    destruct Hinv as [Hflag Hone].
    pose proof (cycling_nth _ _ Hj) as Hge. fold (cycling sys) in Hge.
    assert (E : (synchronising sys =? 0) = false) by (apply Z.eqb_neq; lia).
    assert (Hstep : step None sys (Step i result) =
              mkSys (synchronising sys) (setCall i (Finished (Some errBusy)) (calls sys))).
    { cbn [step]. rewrite Hi. cbn [stepCall]. rewrite E. reflexivity. }
    split; [exact Hstep|]. rewrite Hstep. unfold cycling. cbn [calls].
    pose proof (cycling_setCall _ _ _ (Finished (Some errBusy)) Hi) as Hc.
    cbn [isCycling countIf] in Hc. lia.
  - intros id1 hash1 id2 hash2 r1 r2 r Hr first second.
    subst first second. cbn.
    split; [reflexivity|]. split; [reflexivity|].
    destruct r as [e|]; [destruct e|]; cbn; try (split; reflexivity).
    exfalso. apply Hr. reflexivity.
Qed.

Lemma synchronise_one_at_a_time_witness :
  let sys := run None idle [Call "a" 1%N; Call "b" 2%N; Step 1 None] in
  step None sys (Step 0 None) = mkSys 1 [Finished (Some errBusy); Cycling] /\
  calls (run None idle
           [Call "a" 1%N; Call "b" 2%N; Step 0 None; Step 1 None; Step 0 (Some errTimeout)])
    = [Finished (Some errTimeout); Finished (Some errBusy)].
Proof.
  destruct synchronise_one_at_a_time as [_ [Hbusy Htwo]].
  split.
  - destruct (Hbusy [Call "a" 1%N; Call "b" 2%N; Step 1 None] 0%nat 1%nat
                "a"%string 1%N None) as [Hstep _]; [reflexivity | reflexivity |].
    exact Hstep.
  - destruct (Htwo "a"%string 1%N "b"%string 2%N None None (Some errTimeout))
      as [Hfirst _]; [discriminate|].
    exact Hfirst.
Defined.

(** *** deliver: handing a packet to the running cycle *)

Inductive dataPack : Type :=
| headerPack (peerId : string) (headers : list Header)
| bodyPack (peerId : string) (transactions : list (list (list byte)))
           (uncles : list (list Header))
| receiptPack (peerId : string) (receipts : list (list (list byte)))
| statePack (peerId : string) (states : list (list byte)).

(** A channel of packets: what was sent and not yet received, the size of
    the buffer, and whether a receiver waits on the channel (the only way
    in which a channel without a buffer takes a packet). *)
Record chan : Type := mkChan {
  queued : list dataPack;
  capacity : nat;
  receiverWaiting : bool
}.

Definition canSend (ch : chan) : bool :=
  (length (queued ch) <? capacity ch)%nat || receiverWaiting ch.

Definition send (ch : chan) (packet : dataPack) : chan :=
  mkChan (queued ch ++ [packet]) (capacity ch)
         ((length (queued ch) <? capacity ch)%nat && receiverWaiting ch).

Inductive meter : Type :=
| headerInMeter | headerDropMeter | bodyInMeter | bodyDropMeter
| receiptInMeter | receiptDropMeter | stateInMeter | stateDropMeter.

(** The fields of the downloader that a delivery touches. [cancelCh] is
    nil ([None]) outside of a cycle, else open ([Some false]) or closed
    ([Some true]). [marks] are the calls of [Mark] on the meters. *)
Record deliveryState : Type := mkDelivery {
  cancelCh : option bool;
  headerCh : chan;
  bodyCh : chan;
  receiptCh : chan;
  stateCh : chan;
  marks : list (meter * Z)
}.

Inductive destination : Type := toHeaderCh | toBodyCh | toReceiptCh | toStateCh.

Definition destChan (d : deliveryState) (dest : destination) : chan :=
  match dest with
  | toHeaderCh => headerCh d
  | toBodyCh => bodyCh d
  | toReceiptCh => receiptCh d
  | toStateCh => stateCh d
  end.

Definition sendTo (d : deliveryState) (dest : destination) (packet : dataPack)
  : deliveryState :=
  match dest with
  | toHeaderCh => mkDelivery (cancelCh d) (send (headerCh d) packet) (bodyCh d)
                             (receiptCh d) (stateCh d) (marks d)
  | toBodyCh => mkDelivery (cancelCh d) (headerCh d) (send (bodyCh d) packet)
                           (receiptCh d) (stateCh d) (marks d)
  | toReceiptCh => mkDelivery (cancelCh d) (headerCh d) (bodyCh d)
                              (send (receiptCh d) packet) (stateCh d) (marks d)
  | toStateCh => mkDelivery (cancelCh d) (headerCh d) (bodyCh d) (receiptCh d)
                            (send (stateCh d) packet) (marks d)
  end.

Definition mark (d : deliveryState) (m : meter) (n : Z) : deliveryState :=
  mkDelivery (cancelCh d) (headerCh d) (bodyCh d) (receiptCh d) (stateCh d)
             (marks d ++ [(m, n)]).

(** The case of the [select] statement that fires. *)
Inductive selectCase : Type := SendFired | CancelFired.

Section Deliver.

(** The method [Items] of a packet (types.go is not among the sources);
    it feeds the meters only. *)
Variable Items : dataPack -> Z.

(** [deliver] returns the error and leaves the downloader in a new state;
    [None] is a call that cannot leave its [select] by the given case:
    the send needs room or a receiver, the cancel case a closed channel. *)
Definition deliver (d : deliveryState) (dest : destination) (packet : dataPack)
    (inMeter dropMeter : meter) (fired : selectCase)
  : option (option error * deliveryState) :=
  (* Update the delivery metrics for both good and failed deliveries *)
  let d1 := mark d inMeter (Items packet) in
  let dropped := Some (Some errNoSyncActive, mark d1 dropMeter (Items packet)) in
  match cancelCh d with
  | None => dropped
  | Some closed =>
    match fired with
    | SendFired =>
      if canSend (destChan d1 dest) then Some (None, sendTo d1 dest packet) else None
    | CancelFired =>
      if closed then dropped else None
    end
  end.

Definition DeliverHeaders (d : deliveryState) (id : string) (headers : list Header) :=
  deliver d toHeaderCh (headerPack id headers) headerInMeter headerDropMeter.

Definition DeliverBodies (d : deliveryState) (id : string)
    (transactions : list (list (list byte))) (uncles : list (list Header)) :=
  deliver d toBodyCh (bodyPack id transactions uncles) bodyInMeter bodyDropMeter.

Definition DeliverReceipts (d : deliveryState) (id : string)
    (receipts : list (list (list byte))) :=
  deliver d toReceiptCh (receiptPack id receipts) receiptInMeter receiptDropMeter.

Definition DeliverNodeData (d : deliveryState) (id : string) (data : list (list byte)) :=
  deliver d toStateCh (statePack id data) stateInMeter stateDropMeter.

(** A call of one of the four entry points. *)
Inductive delivery : Type :=
| Headers (id : string) (headers : list Header)
| Bodies (id : string) (transactions : list (list (list byte))) (uncles : list (list Header))
| Receipts (id : string) (receipts : list (list (list byte)))
| NodeData (id : string) (data : list (list byte)).

Definition Deliver (d : deliveryState) (call : delivery) (fired : selectCase)
  : option (option error * deliveryState) :=
  match call with
  | Headers id headers => DeliverHeaders d id headers fired
  | Bodies id transactions uncles => DeliverBodies d id transactions uncles fired
  | Receipts id receipts => DeliverReceipts d id receipts fired
  | NodeData id data => DeliverNodeData d id data fired
  end.

(** Nothing was queued: the four channels are as before. *)
Definition sameChannels (d d' : deliveryState) : Prop :=
  headerCh d' = headerCh d /\ bodyCh d' = bodyCh d /\
  receiptCh d' = receiptCh d /\ stateCh d' = stateCh d.

Lemma deliver_dropped (d : deliveryState) (dest : destination) (packet : dataPack)
    (inMeter dropMeter : meter) (fired : selectCase) :
  (cancelCh d = None ->
   deliver d dest packet inMeter dropMeter fired =
     Some (Some errNoSyncActive,
           mark (mark d inMeter (Items packet)) dropMeter (Items packet))) /\
  (forall r d',
      fired = CancelFired ->
      deliver d dest packet inMeter dropMeter fired = Some (r, d') ->
      r = Some errNoSyncActive /\
      d' = mark (mark d inMeter (Items packet)) dropMeter (Items packet)) /\
  (cancelCh d = Some true ->
   deliver d dest packet inMeter dropMeter CancelFired =
     Some (Some errNoSyncActive,
           mark (mark d inMeter (Items packet)) dropMeter (Items packet))).
Proof.
  unfold deliver. split; [|split].
  - intros ->. reflexivity.
  - intros r d' -> H. destruct (cancelCh d) as [[|]|];
      try discriminate; injection H as <- <-; split; reflexivity.
  - intros ->. reflexivity.
Qed.

Lemma mark_sameChannels (d : deliveryState) (m1 m2 : meter) (n1 n2 : Z) :
  sameChannels d (mark (mark d m1 n1) m2 n2).
Proof. unfold sameChannels, mark. cbn. repeat split. Qed.

(** C9. A call of DeliverHeaders, DeliverBodies, DeliverReceipts or
    DeliverNodeData returns errNoSyncActive and queues nothing (the four
    channels are as before) when the cancel channel is nil, whatever the
    [select] would do, and when the call leaves its [select] by the cancel
    case; with a closed cancel channel that case can fire. *)
Theorem Deliver_no_sync_active (d : deliveryState) (call : delivery) (fired : selectCase) :
  (cancelCh d = None ->
   exists d', Deliver d call fired = Some (Some errNoSyncActive, d') /\ sameChannels d d') /\
  (fired = CancelFired ->
   forall r d', Deliver d call fired = Some (r, d') ->
                r = Some errNoSyncActive /\ sameChannels d d') /\
  (cancelCh d = Some true ->
   exists d', Deliver d call CancelFired = Some (Some errNoSyncActive, d') /\
              sameChannels d d').
Proof.
  destruct call as [id headers|id transactions uncles|id receipts|id data];
    unfold Deliver, DeliverHeaders, DeliverBodies, DeliverReceipts, DeliverNodeData;
    match goal with |- context [deliver d ?dest ?pk ?im ?dm fired] =>
      destruct (deliver_dropped d dest pk im dm fired) as [Hnil [Hcancel Hclosed]]
    end;
    (split; [|split]).
  all: try (intros Hc; eexists; split; [apply Hnil; exact Hc | apply mark_sameChannels]).
  all: try (intros Hf r d' H; destruct (Hcancel r d' Hf H) as [-> ->];
            split; [reflexivity | apply mark_sameChannels]).
  all: intros Hc; eexists; split; [apply Hclosed; exact Hc | apply mark_sameChannels].
Qed.

End Deliver.

(** *** A local chain to run the processor on *)

(** The headers of the chain, newest first, above a fixed genesis block. A
    header is inserted when it extends the head; [Rollback] drops the
    headers it is given. *)
Module ListChain.

Definition genesis : Header := mkHeader 0%N 0 1000%N.

Definition head (c : list Header) : Header := hd genesis c.

Definition has (c : list Header) (hash : common_Hash) (number : Z) : bool :=
  existsb (fun h => (Hash h =? hash)%N && (NumberU64 h =? number)) (c ++ [genesis]).

Definition get (c : list Header) (hash : common_Hash) : option Header :=
  find (fun h => (Hash h =? hash)%N) (c ++ [genesis]).

Fixpoint insert (c : list Header) (chunk : list Header) (n : nat)
  : list Header * nat * option string :=
  match chunk with
  | [] => (c, n, None)
  | h :: chunk' =>
    if (ParentHash h =? Hash (head c))%N && (Number h =? Number (head c) + 1)
    then insert (h :: c) chunk' (S n)
    else (c, n, Some "unknown ancestor"%string)
  end.

Definition drop (c : list Header) (hashes : list common_Hash) : list Header :=
  filter (fun h => negb (existsb (N.eqb (Hash h)) hashes)) c.

#[global] Instance lightChain : LightChain (list Header) := {
  HasHeader := has;
  GetHeaderByHash := get;
  CurrentHeader := head;
  GetTd := fun _ _ number => number;
  InsertHeaderChain := fun c chunk _ => insert c chunk 0;
  Rollback := drop
}.

#[global] Instance blockChain : BlockChain (list Header) := {
  HasBlock := has;
  CurrentBlock := head;
  CurrentFastBlock := head
}.

(** The queue as the list of the chunks it was given. *)
#[global] Instance chunkQueue : Queue (list (list Header)) := {
  PendingBlocks := fun q => Z.of_nat (length (concat q));
  PendingReceipts := fun q => Z.of_nat (length (concat q));
  Schedule := fun q chunk _ => (q ++ [chunk], length chunk)
}.

(** The header number [k] of the canonical chain above [genesis], and a
    header number [k] that does not link to it. *)
Definition canon (k : Z) : Header :=
  mkHeader (Z.to_N (1000 + k - 1)) k (Z.to_N (1000 + k)).

Definition stray (k : Z) : Header :=
  mkHeader 77%N k (Z.to_N (5000 + k)).

Definition canonRange (from : Z) (count : nat) : list Header :=
  map (fun i => canon (from + Z.of_nat i)) (seq 0 count).

End ListChain.

(** **** The processor on a failing batch *)

(** The batch [canon 1; stray 2; canon 3] fails at its second header. The
    list handed to [Rollback] is the first header alone: neither the
    offending header nor the one after it is in it. *)
Lemma processHeaders_offending_not_rolled_back :
  let batch := [ListChain.canon 1; ListChain.stray 2; ListChain.canon 3] in
  InsertHeaderChain (C := list Header) [] batch (verifyFrequency batch 0)
    = ([ListChain.canon 1], 1%nat, Some "unknown ancestor"%string) /\
  processHeaders (C := list Header) (Q := list (list Header))
    [ProcHeaders batch []] LightSync [] [] 0 1 0 10
    = Returned (mkReturn (Some errInvalidChain) [] (Some [Hash (ListChain.canon 1)])) /\
  ~ In (Hash (ListChain.stray 2)) [Hash (ListChain.canon 1)] /\
  ~ In (Hash (ListChain.canon 3)) [Hash (ListChain.canon 1)].
Proof.
  cbv zeta. split; [reflexivity|]. split; [reflexivity|].
  split; cbn; intros [H|[]]; discriminate.
Qed.

(** After a batch of 2048 new headers the rollback list is full; when the
    next batch fails after one header, 2049 hashes are handed to
    [Rollback]: the list is not cut on the failure path. *)
Example processHeaders_rollback_beyond_safety_net :
  match processHeaders (C := list Header) (Q := list (list Header))
          [ProcHeaders (ListChain.canonRange 1 2048) [];
           ProcHeaders [ListChain.canon 2049; ListChain.stray 2050] []]
          LightSync [] [] 0 1 0 10 with
  | Returned r =>
    retErr r = Some errInvalidChain /\
    option_map (@length _) (rolledBack r) = Some 2049%nat
  | _ => False
  end.
Proof. vm_compute. split; reflexivity. Qed.

Lemma processHeaders_rollback_witness :
  let batch := [ListChain.canon 1; ListChain.stray 2; ListChain.canon 3] in
  let st := mkProc (C := list Header) (Q := list (list Header)) [] [] [] 1 true 0 in
  importChunk 0 st batch =
    Return (Some errInvalidChain) (setRollback st [ListChain.canon 1] [ListChain.canon 1]) /\
  (exists rb,
      importChunk 0 st [ListChain.canon 1] = Continue (setRollback st [ListChain.canon 1] rb) /\
      rb = [ListChain.canon 1]) /\
  (length [Hash (ListChain.canon 1)] < fsHeaderSafetyNet + maxHeadersProcess)%nat.
Proof.
  cbv zeta.
  destruct (processHeaders_rollback (C := list Header) (Q := list (list Header)))
    as [Hfail [Hok [_ Hend]]].
  split; [|split].
  - assert (Hn : (1 < length [ListChain.canon 1; ListChain.stray 2; ListChain.canon 3])%nat)
      by (cbn; lia).
    exact (Hfail 0 (mkProc [] [] [] 1 true 0)
             [ListChain.canon 1; ListChain.stray 2; ListChain.canon 3]
             [ListChain.canon 1] 1%nat "unknown ancestor"%string eq_refl Hn).
  - destruct (Hok 0 (mkProc (C := list Header) (Q := list (list Header)) [] [] [] 1 true 0)
                [ListChain.canon 1] [ListChain.canon 1] 1%nat)
      as [rb [Himp [Hrb _]]].
    + reflexivity.
    + unfold rollbackBounded. cbn. lia.
    + exists rb. split; [exact Himp | exact Hrb].
  - apply (Hend [ProcHeaders [ListChain.canon 1; ListChain.stray 2; ListChain.canon 3] []]
             LightSync [] [] 0 1 0 10
             (mkReturn (Some errInvalidChain) [] (Some [Hash (ListChain.canon 1)]))).
    + reflexivity.
    + reflexivity.
Defined.

(** **** The ancestor lookup on a local chain of 40 blocks *)

(** The local chain holds the blocks 1 to 40 above the genesis block; with
    an epoch of 10 blocks the floor is 10. *)
Definition chain40 : list Header := rev (ListChain.canonRange 1 40).

(** A peer that shares the genesis block only: the head scan locates block
    0, which is below the floor. *)
Definition forkedAtGenesis : list chanEvent :=
  [EvReceipts;
   EvHeaders "peer" [ListChain.genesis; ListChain.stray 16; ListChain.stray 32]].

(** A peer on our chain: the head scan locates block 32. *)
Definition onOurChain : list chanEvent :=
  [EvHeaders "other" [];
   EvHeaders "peer" [ListChain.genesis; ListChain.canon 16; ListChain.canon 32]].

(** A peer with another genesis block whose replies are all unknown: the
    binary search runs from 10 to 40 and ends at the floor. *)
Definition unknownPeer : list chanEvent :=
  [EvHeaders "peer" [ListChain.stray 0; ListChain.stray 16; ListChain.stray 32];
   EvHeaders "peer" [ListChain.stray 25];
   EvHeaders "peer" [ListChain.stray 17];
   EvHeaders "peer" [ListChain.stray 13];
   EvHeaders "peer" [ListChain.stray 11]].

Example findAncestor_runs :
  localHead LightSync chain40 = 40 /\
  ancestorFloor 10 (localHead LightSync chain40) = 10 /\
  headRequest 40 (scanFrom 40) = (0, 3, 15, false) /\
  locateAncestor 10 forkedAtGenesis LightSync chain40 "peer" 50 = Found 0 /\
  findAncestor 10 forkedAtGenesis LightSync chain40 "peer" 50 = Failed errInvalidAncestor /\
  findAncestor 10 onOurChain LightSync chain40 "peer" 50 = Found 32 /\
  locateAncestor 10 unknownPeer LightSync chain40 "peer" 50 = Found 10 /\
  findAncestor 10 unknownPeer LightSync chain40 "peer" 50 = Failed errInvalidAncestor /\
  findAncestor 10 [EvBodies] LightSync chain40 "peer" 50 = Waiting /\
  findAncestor 10 [EvTimeout] LightSync chain40 "peer" 50 = Failed errTimeout.
Proof. vm_compute. repeat split. Qed.

Lemma findAncestor_floor_witness :
  searchStart (ancestorFloor 10 (localHead LightSync chain40)) = 10 /\
  findAncestor 10 forkedAtGenesis LightSync chain40 "peer" 50 = Failed errInvalidAncestor /\
  10 <= 32.
Proof.
  destruct (findAncestor_floor 10 LightSync chain40) as [Hstart [Hbelow Hret]].
  - unfold MaxForkAncestry. lia.
  - vm_compute. reflexivity.
  - split; [exact Hstart|]. split.
    + apply (Hbelow forkedAtGenesis "peer"%string 50 0).
      * unfold in_uint64. lia.
      * vm_compute. reflexivity.
      * vm_compute. reflexivity.
    + destruct (Hret onOurChain "peer"%string 50 32) as [_ [Hb _]].
      * unfold in_uint64. lia.
      * vm_compute. reflexivity.
      * exact Hb.
Defined.

(** **** Deliveries in and out of a cycle *)

(** The number of items of a packet, for the meters of the examples. *)
Definition countItems (packet : dataPack) : Z :=
  match packet with
  | headerPack _ headers => Z.of_nat (length headers)
  | bodyPack _ transactions uncles =>
    Z.of_nat (Nat.min (length transactions) (length uncles))
  | receiptPack _ receipts => Z.of_nat (length receipts)
  | statePack _ states => Z.of_nat (length states)
  end.

(** The channels as [New] makes them: a buffer of one packet for headers,
    bodies and receipts, none for the state data. *)
Definition newDelivery (cancel : option bool) : deliveryState :=
  mkDelivery cancel (mkChan [] 1 false) (mkChan [] 1 false) (mkChan [] 1 false)
             (mkChan [] 0 false) [].

Example Deliver_runs :
  Deliver countItems (newDelivery (Some false)) (Headers "peer" [ListChain.canon 1]) SendFired
    = Some (None,
            mkDelivery (Some false)
              (mkChan [headerPack "peer" [ListChain.canon 1]] 1 false)
              (mkChan [] 1 false) (mkChan [] 1 false) (mkChan [] 0 false)
              [(headerInMeter, 1)]) /\
  Deliver countItems (newDelivery (Some false)) (NodeData "peer" [[x01]]) SendFired = None /\
  Deliver countItems (newDelivery (Some false)) (NodeData "peer" [[x01]]) CancelFired = None /\
  Deliver countItems (newDelivery None) (Receipts "peer" [[[x01]]; []]) SendFired
    = Some (Some errNoSyncActive,
            mkDelivery None (mkChan [] 1 false) (mkChan [] 1 false) (mkChan [] 1 false)
              (mkChan [] 0 false) [(receiptInMeter, 2); (receiptDropMeter, 2)]).
Proof. repeat split. Qed.

Lemma Deliver_no_sync_active_witness :
  (exists d',
      Deliver countItems (newDelivery None) (Headers "peer" [ListChain.canon 1]) SendFired
        = Some (Some errNoSyncActive, d') /\
      sameChannels (newDelivery None) d') /\
  (exists d',
      Deliver countItems (newDelivery (Some true)) (Bodies "peer" [[]] [[]]) CancelFired
        = Some (Some errNoSyncActive, d') /\
      sameChannels (newDelivery (Some true)) d').
Proof.
  split.
  - destruct (Deliver_no_sync_active countItems (newDelivery None)
                (Headers "peer" [ListChain.canon 1]) SendFired) as [Hnil _].
    apply Hnil. reflexivity.
  - destruct (Deliver_no_sync_active countItems (newDelivery (Some true))
                (Bodies "peer" [[]] [[]]) CancelFired) as [_ [Hcancel Hclosed]].
    destruct (Hclosed eq_refl) as [d' [Hd Hsame]].
    exists d'. split; [exact Hd|].
    exact (proj2 (Hcancel eq_refl _ _ Hd)).
Defined.

(** *** processFastSyncContent: the results around the pivot *)

(** A [fetchResult], as far as the content processors look into it. *)
Record fetchResult : Type := mkFetchResult {
  resHeader : Header;
  resTransactions : list (list byte);
  resUncles : list Header;
  resReceipts : list (list byte)
}.

Definition resNumber (r : fetchResult) : Z := NumberU64 (resHeader r).

(** One turn of the loop of [splitAroundPivot]. *)
Definition splitStep (pivot : Z)
    (acc : option fetchResult * list fetchResult * list fetchResult) (result : fetchResult)
  : option fetchResult * list fetchResult * list fetchResult :=
  let '(p, before, after) := acc in
  let num := resNumber result in
  if num <? pivot then (p, before ++ [result], after)
  else if num =? pivot then (Some result, before, after)
  else (p, before, after ++ [result]).

(** [splitAroundPivot]: the pivot block, the results before it and the
    results after it. *)
Definition splitAroundPivot (pivot : Z) (results : list fetchResult)
  : option fetchResult * list fetchResult * list fetchResult :=
  fold_left (splitStep pivot) results (None, [], []).

(** The pivot of the content processor: [fsMinFullBlocks] below the height
    of the peer, or 0. *)
Definition contentPivot (height : Z) : Z :=
  if fsMinFullBlocks <? height then uint64 (height - fsMinFullBlocks) else 0.

Definition dummyResult : fetchResult := mkFetchResult dummyHeader [] [] [].

(** The pivot after a batch of results: while the pivot is not committed,
    a newest result more than twice [fsMinFullBlocks] above the pivot
    makes the pivot stale, and it moves. The loop reaches this point with
    results only: it has returned on an empty batch when no pivot block is
    held, and otherwise the pivot block it holds is put in front; on the
    empty list, which the code would index out of range, the header here
    is [dummyHeader]. *)
Definition movePivot (committed : Z) (pivot : Z) (results : list fetchResult) : Z :=
  if committed =? 0 then
    let height := resNumber (last results dummyResult) in
    if uint64 (pivot + uint64 (2 * fsMinFullBlocks)) <? height
    then uint64 (height - fsMinFullBlocks)
    else pivot
  else pivot.

(** The last result at the pivot, if there is one. *)
Fixpoint lastAt (pivot : Z) (results : list fetchResult) : option fetchResult :=
  match results with
  | [] => None
  | r :: results' =>
    match lastAt pivot results' with
    | Some r' => Some r'
    | None => if resNumber r =? pivot then Some r else None
    end
  end.

Definition optList (p : option fetchResult) : list fetchResult :=
  match p with Some r => [r] | None => [] end.

Lemma splitStep_fold (pivot : Z) (results : list fetchResult) :
  forall p before after,
    fold_left (splitStep pivot) results (p, before, after) =
      (match lastAt pivot results with Some r => Some r | None => p end,
       before ++ filter (fun r => resNumber r <? pivot) results,
       after ++ filter (fun r => pivot <? resNumber r) results).
Proof.
  induction results as [|r results IH]; intros p before after; cbn [fold_left filter lastAt].
  - rewrite !app_nil_r. reflexivity.
  - unfold splitStep at 2.
    destruct (resNumber r <? pivot) eqn:Elt.
    + rewrite IH. apply Z.ltb_lt in Elt.
      assert (E1 : (resNumber r =? pivot) = false) by (apply Z.eqb_neq; lia).
      assert (E2 : (pivot <? resNumber r) = false) by (apply Z.ltb_ge; lia).
      rewrite E1, E2, <- app_assoc. cbn [app].
      destruct (lastAt pivot results); reflexivity.
    + apply Z.ltb_ge in Elt. destruct (resNumber r =? pivot) eqn:Eeq.
      * rewrite IH. apply Z.eqb_eq in Eeq.
        assert (E2 : (pivot <? resNumber r) = false) by (apply Z.ltb_ge; lia).
        rewrite E2. destruct (lastAt pivot results); reflexivity.
      * rewrite IH. apply Z.eqb_neq in Eeq.
        assert (E2 : (pivot <? resNumber r) = true) by (apply Z.ltb_lt; lia).
        rewrite E2, <- app_assoc. cbn [app].
        destruct (lastAt pivot results); reflexivity.
Qed.

Lemma above_pivot (pivot : Z) (results : list fetchResult) :
  Forall (fun r => pivot < resNumber r) results ->
  filter (fun r => resNumber r <? pivot) results = [] /\
  lastAt pivot results = None /\
  filter (fun r => pivot <? resNumber r) results = results.
Proof.
  induction 1 as [|r results Hr _ (IH1 & IH2 & IH3)]; cbn [filter lastAt].
  - repeat split.
  - assert (E1 : (resNumber r <? pivot) = false) by (apply Z.ltb_ge; lia).
    assert (E2 : (resNumber r =? pivot) = false) by (apply Z.eqb_neq; lia).
    assert (E3 : (pivot <? resNumber r) = true) by (apply Z.ltb_lt; lia).
    rewrite E1, E2, E3, IH1, IH2, IH3. repeat split.
Qed.

(** [splitAroundPivot] sorts every result into its part: [before] holds
    the results below the pivot and [after] those above it, both in the
    order of arrival, and the pivot block is the last result at the
    pivot. On results of strictly ascending numbers, as the queue hands
    them out, nothing is lost or moved: the results are [before], then the
    pivot block if there is one, then [after]. *)
Theorem splitAroundPivot_parts (pivot : Z) (results : list fetchResult) :
  let '(p, before, after) := splitAroundPivot pivot results in
  before = filter (fun r => resNumber r <? pivot) results /\
  after = filter (fun r => pivot <? resNumber r) results /\
  p = lastAt pivot results /\
  (forall r, p = Some r -> resNumber r = pivot /\ In r results) /\
  (StronglySorted (fun a b => resNumber a < resNumber b) results ->
   results = before ++ optList p ++ after).
Proof.
  unfold splitAroundPivot. rewrite splitStep_fold. cbn [app].
  split; [reflexivity|]. split; [reflexivity|].
  split; [destruct (lastAt pivot results); reflexivity|].
  assert (Hlast : forall l r, lastAt pivot l = Some r -> resNumber r = pivot /\ In r l).
  { induction l as [|x l IH]; cbn [lastAt]; intros r H; [discriminate|].
    destruct (lastAt pivot l) as [r'|].
    - injection H as <-. destruct (IH r' eq_refl) as [H1 H2]. split; [exact H1|].
      right. exact H2.
    - destruct (resNumber x =? pivot) eqn:E; [|discriminate].
      injection H as <-. apply Z.eqb_eq in E. split; [exact E | left; reflexivity]. }
  split.
  - intros r H. apply Hlast. destruct (lastAt pivot results); [exact H | discriminate].
  - intros Hs.
    replace (match lastAt pivot results with Some r => Some r | None => None end)
      with (lastAt pivot results) by (destruct (lastAt pivot results); reflexivity).
    induction Hs as [|r results Hs IH Hr]; [reflexivity|].
    cbn [filter lastAt].
    destruct (resNumber r <? pivot) eqn:Elt.
    + apply Z.ltb_lt in Elt.
      assert (E1 : (resNumber r =? pivot) = false) by (apply Z.eqb_neq; lia).
      assert (E2 : (pivot <? resNumber r) = false) by (apply Z.ltb_ge; lia).
      rewrite E1, E2. cbn [app]. f_equal.
      destruct (lastAt pivot results); exact IH.
    + apply Z.ltb_ge in Elt.
      assert (Hall : Forall (fun r' => pivot < resNumber r') results).
      { apply Forall_impl with (2 := Hr). intros a Ha. lia. }
      destruct (above_pivot pivot results Hall) as (H1 & H2 & H3).
      rewrite H1, H2, H3.
      destruct (resNumber r =? pivot) eqn:Eeq.
      * apply Z.eqb_eq in Eeq.
        assert (E2 : (pivot <? resNumber r) = false) by (apply Z.ltb_ge; lia).
        rewrite E2. reflexivity.
      * apply Z.eqb_neq in Eeq.
        assert (E2 : (pivot <? resNumber r) = true) by (apply Z.ltb_lt; lia).
        rewrite E2. reflexivity.
Qed.

(** The results number [from] to [from + count - 1]. *)
Definition resultRange (from : Z) (count : nat) : list fetchResult :=
  map (fun i => mkFetchResult (mkHeader 0%N (from + Z.of_nat i) 0%N) [] [] []) (seq 0 count).

Lemma splitAroundPivot_parts_witness :
  resultRange 8 5 = resultRange 8 2 ++ resultRange 10 1 ++ resultRange 11 2.
Proof.
  pose proof (splitAroundPivot_parts 10 (resultRange 8 5)) as H.
  change (splitAroundPivot 10 (resultRange 8 5))
    with (Some (mkFetchResult (mkHeader 0%N 10 0%N) [] [] []),
          resultRange 8 2, resultRange 11 2) in H.
  destruct H as (_ & _ & _ & _ & H).
  apply H. unfold resultRange. cbn [map seq].
  repeat (apply SSorted_cons || apply SSorted_nil || apply Forall_cons || apply Forall_nil).
  all: vm_compute; reflexivity.
Defined.

(** The pivot of the content processor is the pivot that [syncWithPeer]
    gave to the header fetcher and the header processor. While it is not
    committed the pivot never moves back; it moves only to lie
    [fsMinFullBlocks] below a newest result that has come more than twice
    as far above it, and after every batch the newest result is at most
    [2 * fsMinFullBlocks] above the pivot. A committed pivot stays. *)
Theorem pivot_tracking (height pivot0 committed0 : Z) (results : list fetchResult) :
  in_uint64 height -> 0 <= pivot0 -> pivot0 + 2 * fsMinFullBlocks < 2 ^ 64 ->
  (forall origin0, contentPivot height = pivot (syncWithPeer_start FastSync height origin0)) /\
  pivot0 <= movePivot committed0 pivot0 results /\
  (committed0 = 0 ->
   resNumber (last results dummyResult)
     <= movePivot committed0 pivot0 results + 2 * fsMinFullBlocks) /\
  (movePivot committed0 pivot0 results <> pivot0 ->
   committed0 = 0 /\
   movePivot committed0 pivot0 results
     = resNumber (last results dummyResult) - fsMinFullBlocks /\
   pivot0 + fsMinFullBlocks < movePivot committed0 pivot0 results).
Proof.
  intros Hh Hp Hno. unfold in_uint64 in Hh. split.
  - intros origin0. unfold contentPivot, syncWithPeer_start.
    rewrite Z.ltb_antisym. destruct (height <=? fsMinFullBlocks); cbn [negb]; [reflexivity|].
    destruct (_ <=? origin0); reflexivity.
  - unfold movePivot, fsMinFullBlocks in *.
    pose proof (uint64_range (Number (resHeader (last results dummyResult)))) as Hr.
    unfold in_uint64 in Hr. fold (NumberU64 (resHeader (last results dummyResult))) in Hr.
    fold (resNumber (last results dummyResult)) in Hr.
    set (h := resNumber (last results dummyResult)) in *.
    rewrite (uint64_small (2 * 64)) by (unfold in_uint64; lia).
    rewrite (uint64_small (pivot0 + 2 * 64)) by (unfold in_uint64; lia).
    destruct (committed0 =? 0) eqn:Ec.
    + apply Z.eqb_eq in Ec.
      destruct (pivot0 + 2 * 64 <? h) eqn:Eh.
      * apply Z.ltb_lt in Eh. rewrite uint64_small by (unfold in_uint64; lia).
        repeat split; lia.
      * apply Z.ltb_ge in Eh. repeat split; try lia; contradiction.
    + apply Z.eqb_neq in Ec. repeat split; try lia; contradiction.
Qed.

Lemma pivot_tracking_witness :
  contentPivot 1000 = 936 /\ 936 <= movePivot 0 936 (resultRange 1190 11).
Proof.
  destruct (pivot_tracking 1000 936 0 (resultRange 1190 11)) as (H1 & H2 & _).
  - unfold in_uint64. lia.
  - lia.
  - unfold fsMinFullBlocks. lia.
  - split; [|exact H2]. rewrite (H1 0). reflexivity.
Defined.

Example movePivot_runs :
  movePivot 0 936 (resultRange 1190 11) = 1136 /\
  movePivot 0 936 (resultRange 1054 11) = 936 /\
  movePivot 1 936 (resultRange 1190 11) = 936.
Proof. vm_compute. repeat split. Qed.

(** *** fetchHeight and the events that do not count *)

(** [fetchHeight]: the head header of the peer, from the reply to the
    request for its head hash. *)
Fixpoint fetchHeight (evs : list chanEvent) (p : string) : outcome Header :=
  match evs with
  | [] => Waiting
  | EvCancel :: _ => Failed errCancelBlockFetch
  | EvHeaders peer headers :: evs' =>
    (* Discard anything not from the origin peer *)
    if negb (String.eqb peer p) then fetchHeight evs' p
    else
      (* Make sure the peer actually gave something valid *)
      match headers with
      | [head] => Found head
      | _ => Failed errBadPeer
      end
  | EvTimeout :: _ => Failed errTimeout
  | EvBodies :: evs' => fetchHeight evs' p
  | EvReceipts :: evs' => fetchHeight evs' p
  end.

(** The events that count for a lookup with the peer [p]: the cancel
    channel, the timer and the header packets of [p]. *)
Definition relevant (p : string) (ev : chanEvent) : bool :=
  match ev with
  | EvHeaders peer _ => String.eqb peer p
  | EvBodies | EvReceipts => false
  | EvCancel | EvTimeout => true
  end.

Section Lookups.

Variable EpochDuration : Z.
Context {C : Type} {LC : LightChain C} {BC : BlockChain C}.

Lemma awaitHead_relevant (evs : list chanEvent) (mode : SyncMode) (c : C) (p : string)
    (from ceil height : Z) :
  awaitHead (filter (relevant p) evs) mode c p from ceil height =
    match awaitHead evs mode c p from ceil height with
    | Found (r, evs') => Found (r, filter (relevant p) evs')
    | Failed e => Failed e
    | Crashed => Crashed
    | Waiting => Waiting
    end.
Proof.
  induction evs as [|ev evs IH]; [reflexivity|].
  destruct ev as [|peer headers| | |]; cbn [filter relevant awaitHead];
    try reflexivity; try exact IH.
  destruct (String.eqb peer p) eqn:Ep; cbn [negb]; [|exact IH].
  cbn [awaitHead]. rewrite Ep. cbn [negb].
  destruct (length headers =? 0)%nat; [reflexivity|].
  destruct (negb (conforms headers 0 from)); [reflexivity|].
  destruct (scanHeaders mode c from ceil height (rev (indexed headers))); reflexivity.
Qed.

Lemma searchAncestor_done (evs : list chanEvent) (mode : SyncMode) (c : C) (p : string)
    (start end_ : Z) :
  (uint64 (start + 1) <? end_) = false ->
  searchAncestor evs mode c p start end_ = Found start.
Proof. intros H. destruct evs; cbn [searchAncestor]; rewrite H; reflexivity. Qed.

Lemma searchAncestor_relevant (evs : list chanEvent) (mode : SyncMode) (c : C) (p : string) :
  forall start end_,
    searchAncestor (filter (relevant p) evs) mode c p start end_ =
    searchAncestor evs mode c p start end_.
Proof.
  induction evs as [|ev evs IH]; intros start end_; [reflexivity|].
  destruct (uint64 (start + 1) <? end_) eqn:Ec.
  2: { rewrite !searchAncestor_done by exact Ec. reflexivity. }
  destruct ev as [|peer headers| | |]; cbn [filter relevant].
  - cbn [searchAncestor]. reflexivity.
  - destruct (String.eqb peer p) eqn:Ep.
    + cbn [searchAncestor]. rewrite Ec, Ep. cbn [negb].
      destruct headers as [|h [|h2 headers]]; try reflexivity.
      destruct (negb (known mode c h)); [apply IH|].
      destruct (GetHeaderByHash c (Hash h)) as [header|]; [|reflexivity].
      destruct (NumberU64 header =? uint64 (start + end_) / 2); [apply IH | reflexivity].
    + rewrite IH. cbn [searchAncestor]. rewrite Ec, Ep. reflexivity.
  - cbn [searchAncestor]. reflexivity.
  - rewrite IH. cbn [searchAncestor]. rewrite Ec. reflexivity.
  - rewrite IH. cbn [searchAncestor]. rewrite Ec. reflexivity.
Qed.

(** The deliveries that are out of bounds never change a lookup: with the
    header packets of other peers and the body and receipt packets taken
    out of what arrives, [fetchHeight] and [findAncestor] end the same
    way. *)
Theorem lookups_ignore_foreign_packets (evs : list chanEvent) (mode : SyncMode) (c : C)
    (p : string) (height : Z) :
  fetchHeight (filter (relevant p) evs) p = fetchHeight evs p /\
  findAncestor EpochDuration (filter (relevant p) evs) mode c p height =
    findAncestor EpochDuration evs mode c p height.
Proof.
  split.
  - induction evs as [|ev evs IH]; [reflexivity|].
    destruct ev as [|peer headers| | |]; cbn [filter relevant fetchHeight];
      try reflexivity; try exact IH.
    destruct (String.eqb peer p) eqn:Ep; cbn [negb]; [|exact IH].
    cbn [fetchHeight]. rewrite Ep. reflexivity.
  - unfold findAncestor. cbv zeta. rewrite awaitHead_relevant.
    destruct (awaitHead evs mode c p _ _ height) as [[scan evs']|e| |]; try reflexivity.
    destruct scan as [|number hash|]; cbn [N.eqb emptyHash negb];
      rewrite searchAncestor_relevant; reflexivity.
Qed.

(** An ancestor that [findAncestor] returns is never above the local head
    of the mode. *)
Theorem findAncestor_below_head (evs : list chanEvent) (mode : SyncMode) (c : C)
    (p : string) (height n : Z) :
  0 <= MaxForkAncestry EpochDuration -> localHead mode c < 2 ^ 63 -> in_uint64 height ->
  findAncestor EpochDuration evs mode c p height = Found n ->
  0 <= n <= localHead mode c.
Proof.
  intros HM Hc Hh Hf. rewrite findAncestor_locate in Hf.
  destruct (locateAncestor EpochDuration evs mode c p height) as [m|e| |] eqn:Hloc;
    try discriminate.
  pose proof (locateAncestor_range EpochDuration evs mode c p height m HM Hc Hh Hloc) as Hr.
  unfold checkFloor in Hf.
  destruct (int64 m <=? ancestorFloor EpochDuration (localHead mode c)); [discriminate|].
  injection Hf as <-. exact Hr.
Qed.

End Lookups.

(** The request for the head headers starts [MaxHeaderFetch] below the
    lower of the two heads, or at 0, asks for at least one and at most 24
    headers, 16 blocks apart, and none of them lies above the local head. *)
Theorem headRequest_bounds (ceil height : Z) :
  0 <= ceil < 2 ^ 63 -> in_uint64 height ->
  let from := scanFrom (searchHead ceil height) in
  from = Z.max 0 (Z.min ceil height - MaxHeaderFetch) /\
  exists count,
    headRequest ceil from = (from, count, 15, false) /\
    1 <= count <= 24 /\
    from + 16 * (count - 1) <= ceil.
Proof.
  intros Hc Hh from. unfold in_uint64 in Hh.
  assert (Hhead : 0 <= searchHead ceil height <= ceil /\
                  searchHead ceil height = Z.min ceil height).
  { unfold searchHead. destruct (height <? ceil) eqn:E.
    - apply Z.ltb_lt in E. lia.
    - apply Z.ltb_ge in E. lia. }
  destruct Hhead as [Hhead Hmin].
  assert (Hfrom : from = Z.max 0 (searchHead ceil height - MaxHeaderFetch)).
  { subst from. unfold scanFrom, MaxHeaderFetch.
    rewrite (int64_small (searchHead ceil height)) by lia.
    rewrite int64_small by lia.
    destruct (searchHead ceil height - 192 <? 0) eqn:E.
    - apply Z.ltb_lt in E. lia.
    - apply Z.ltb_ge in E. lia. }
  split; [rewrite Hfrom, Hmin; reflexivity|].
  assert (Hf : 0 <= from <= ceil) by (unfold MaxHeaderFetch in Hfrom; lia).
  unfold headRequest, scanLimit, MaxHeaderFetch.
  rewrite (int64_small ceil) by lia.
  rewrite (int64_small (ceil - from)) by lia.
  rewrite uint64_small by (unfold in_uint64; lia).
  rewrite Z.quot_div_nonneg by lia.
  change (2 * 192 / 16) with 24.
  assert (Hq : 0 <= (ceil - from) / 16) by (apply Z.div_pos; lia).
  assert (Hm : 16 * ((ceil - from) / 16) <= ceil - from) by (apply Z.mul_div_le; lia).
  destruct (24 <? 1 + (ceil - from) / 16) eqn:E.
  - apply Z.ltb_lt in E. exists 24. split; [reflexivity|]. lia.
  - apply Z.ltb_ge in E. eexists. split; [reflexivity|]. lia.
Qed.

Lemma headRequest_bounds_witness :
  scanFrom (searchHead 5000 4000) = Z.max 0 (Z.min 5000 4000 - MaxHeaderFetch).
Proof.
  apply (headRequest_bounds 5000 4000); unfold in_uint64; lia.
Defined.

Lemma findAncestor_below_head_witness : 0 <= 32 <= localHead LightSync chain40.
Proof.
  apply (findAncestor_below_head 10 onOurChain LightSync chain40 "peer" 50 32).
  - unfold MaxForkAncestry. lia.
  - vm_compute. reflexivity.
  - unfold in_uint64. lia.
  - vm_compute. reflexivity.
Defined.

Example fetchHeight_runs :
  fetchHeight [EvBodies; EvHeaders "other" []; EvHeaders "peer" [ListChain.canon 7]] "peer"
    = Found (ListChain.canon 7) /\
  fetchHeight [EvHeaders "peer" []] "peer" = Failed errBadPeer /\
  fetchHeight [EvHeaders "peer" [ListChain.canon 7; ListChain.canon 8]] "peer"
    = Failed errBadPeer /\
  fetchHeight [EvHeaders "other" [ListChain.canon 7]] "peer" = Waiting.
Proof. repeat split. Qed.

(** *** Synchronising *)

(** [Synchronising]: whether the downloader is currently retrieving
    blocks. *)
Definition Synchronising (sys : syncSystem) : bool := 0 <? synchronising sys.

Lemma cycling_exists (l : list callState) :
  (1 <= length (filter isCycling l))%nat -> exists i, nth_error l i = Some Cycling.
Proof.
  induction l as [|x l IH]; cbn [filter]; [cbn; lia|].
  destruct x as [id hash| |err]; cbn [isCycling].
  - intros H. destruct (IH H) as [i Hi]. exists (S i). exact Hi.
  - intros _. exists 0%nat. reflexivity.
  - intros H. destruct (IH H) as [i Hi]. exists (S i). exact Hi.
Qed.

Lemma cycling_two (l : list callState) :
  forall i j, nth_error l i = Some Cycling -> nth_error l j = Some Cycling -> i <> j ->
              (2 <= length (filter isCycling l))%nat.
Proof.
  induction l as [|x l IH]; intros [|i] [|j] Hi Hj Hne; cbn in Hi, Hj; try discriminate;
    try contradiction; cbn [filter].
  - injection Hi as ->. cbn [isCycling length]. pose proof (cycling_nth _ _ Hj). lia.
  - injection Hj as ->. cbn [isCycling length]. pose proof (cycling_nth _ _ Hi). lia.
  - assert (Hne' : i <> j) by congruence.
    specialize (IH i j Hi Hj Hne'). destruct (isCycling x); cbn [length]; lia.
Qed.

(** After any calls of [synchronise], in any interleaving, [Synchronising]
    reports true exactly when the cycle of some call is in progress, and
    that call is the only one. *)
Theorem Synchronising_reports_the_cycle (mock : mockFn) (schedule : list action) :
  let sys := run mock idle schedule in
  (Synchronising sys = true <-> exists i, nth_error (calls sys) i = Some Cycling) /\
  (forall i j, nth_error (calls sys) i = Some Cycling ->
               nth_error (calls sys) j = Some Cycling -> i = j).
Proof.
  cbv zeta.
  assert (Hinv : oneCycle (run mock idle schedule)).
  { apply run_oneCycle. unfold oneCycle, cycling. cbn. split; lia. }
  destruct Hinv as [Hflag Hone]. unfold Synchronising, cycling in *. split.
  - rewrite Z.ltb_lt. split.
    + intros H. apply cycling_exists. lia.
    + intros [i Hi]. pose proof (cycling_nth _ _ Hi). lia.
  - intros i j Hi Hj. destruct (Nat.eq_dec i j) as [|Hne]; [assumption|].
    pose proof (cycling_two _ i j Hi Hj Hne). lia.
Qed.

Lemma Synchronising_reports_the_cycle_witness :
  Synchronising (run None idle [Call "a" 1%N; Call "b" 2%N; Step 1 None]) = true.
Proof.
  apply (Synchronising_reports_the_cycle None [Call "a" 1%N; Call "b" 2%N; Step 1 None]).
  exists 1%nat. reflexivity.
Defined.

(** *** cancel and the deliveries *)

(** [cancel]: the cancel channel of the current cycle is closed, if there
    is one and it is still open. *)
Definition cancel (d : deliveryState) : deliveryState :=
  match cancelCh d with
  | Some false =>
    mkDelivery (Some true) (headerCh d) (bodyCh d) (receiptCh d) (stateCh d) (marks d)
  | _ => d
  end.

Definition destOf (call : delivery) : destination :=
  match call with
  | Headers _ _ => toHeaderCh
  | Bodies _ _ _ => toBodyCh
  | Receipts _ _ => toReceiptCh
  | NodeData _ _ => toStateCh
  end.

Definition packetOf (call : delivery) : dataPack :=
  match call with
  | Headers id headers => headerPack id headers
  | Bodies id transactions uncles => bodyPack id transactions uncles
  | Receipts id receipts => receiptPack id receipts
  | NodeData id data => statePack id data
  end.

Definition inMeterOf (call : delivery) : meter :=
  match call with
  | Headers _ _ => headerInMeter
  | Bodies _ _ _ => bodyInMeter
  | Receipts _ _ => receiptInMeter
  | NodeData _ _ => stateInMeter
  end.

Section Cancel.

Variable Items : dataPack -> Z.

(** [cancel] may be called any number of times: a second call changes
    nothing, no channel is closed twice, and a nil channel stays nil.
    After it no delivery can hang in its [select]: the cancel case fires
    (or there is no cycle), the call returns errNoSyncActive and nothing
    is queued. *)
Theorem cancel_releases_deliveries (d : deliveryState) (call : delivery) :
  cancel (cancel d) = cancel d /\
  (cancelCh (cancel d) = None <-> cancelCh d = None) /\
  cancelCh (cancel d) <> Some false /\
  sameChannels d (cancel d) /\
  exists d',
    Deliver Items (cancel d) call CancelFired = Some (Some errNoSyncActive, d') /\
    sameChannels d d'.
Proof.
  assert (Hch : sameChannels d (cancel d)).
  { unfold sameChannels, cancel. destruct (cancelCh d) as [[|]|]; cbn; repeat split. }
  split; [|split; [|split; [|split]]].
  - unfold cancel. destruct (cancelCh d) as [[|]|] eqn:E; cbn; try rewrite E; reflexivity.
  - unfold cancel. destruct (cancelCh d) as [[|]|] eqn:E; cbn; try rewrite E;
      split; intros H; try discriminate; reflexivity.
  - unfold cancel. destruct (cancelCh d) as [[|]|] eqn:E; cbn; try rewrite E; discriminate.
  - exact Hch.
  - assert (Hc : cancelCh (cancel d) = None \/ cancelCh (cancel d) = Some true).
    { unfold cancel. destruct (cancelCh d) as [[|]|] eqn:E; cbn; try rewrite E; auto. }
    destruct call as [id headers|id transactions uncles|id receipts|id data];
      unfold Deliver, DeliverHeaders, DeliverBodies, DeliverReceipts, DeliverNodeData;
      match goal with |- context [deliver Items ?d0 ?dest ?pk ?im ?dm CancelFired] =>
        destruct (deliver_dropped Items d0 dest pk im dm CancelFired) as [Hnil [_ Hclosed]]
      end;
      (eexists; split;
       [destruct Hc as [Hc|Hc]; [apply Hnil | apply Hclosed]; exact Hc
       |destruct Hch as (H1 & H2 & H3 & H4); unfold sameChannels, mark; cbn;
        repeat split; assumption]).
Qed.

(** A delivery that returns nil went through the send case of a running
    cycle and has queued its packet, behind the packets that wait on its
    channel; the other channels and the cancel channel are as before and
    only the inbound meter was marked. *)
Theorem Deliver_queues_packet (d d' : deliveryState) (call : delivery) (fired : selectCase) :
  Deliver Items d call fired = Some (None, d') ->
  fired = SendFired /\
  (exists closed, cancelCh d = Some closed) /\
  cancelCh d' = cancelCh d /\
  queued (destChan d' (destOf call)) = queued (destChan d (destOf call)) ++ [packetOf call] /\
  (forall dest, dest <> destOf call -> destChan d' dest = destChan d dest) /\
  marks d' = marks d ++ [(inMeterOf call, Items (packetOf call))].
Proof.
  destruct call as [id headers|id transactions uncles|id receipts|id data];
    unfold Deliver, DeliverHeaders, DeliverBodies, DeliverReceipts, DeliverNodeData, deliver;
    cbn [destOf packetOf inMeterOf];
    (destruct (cancelCh d) as [closed|] eqn:Ec; [|discriminate]);
    (destruct fired; [|destruct closed; discriminate]);
    match goal with |- context [canSend ?ch] => destruct (canSend ch); [|discriminate] end;
    intros H; injection H as <-; cbn;
    (split; [reflexivity|]); (split; [eexists; reflexivity|]);
    (split; [congruence|]); (split; [reflexivity|]);
    (split; [|reflexivity]);
    intros dest Hd; destruct dest; try reflexivity; contradiction.
Qed.

End Cancel.

Lemma Deliver_queues_packet_witness :
  queued (headerCh (mkDelivery (Some false)
                      (mkChan [headerPack "peer" [ListChain.canon 1]] 1 false)
                      (mkChan [] 1 false) (mkChan [] 1 false) (mkChan [] 0 false)
                      [(headerInMeter, 1)]))
    = [] ++ [headerPack "peer" [ListChain.canon 1]].
Proof.
  destruct (Deliver_queues_packet countItems (newDelivery (Some false))
              (mkDelivery (Some false)
                 (mkChan [headerPack "peer" [ListChain.canon 1]] 1 false)
                 (mkChan [] 1 false) (mkChan [] 1 false) (mkChan [] 0 false)
                 [(headerInMeter, 1)])
              (Headers "peer" [ListChain.canon 1]) SendFired)
    as (_ & _ & _ & Hq & _); [reflexivity | exact Hq].
Defined.

(** *** The header processor: chunks, and full sync *)

(** The chunks that the loop of [processHeaders] cuts a batch into. *)
Fixpoint chunksOf (fuel : nat) (headers : list Header) : list (list Header) :=
  match headers with
  | [] => []
  | _ :: _ =>
    match fuel with
    | O => []
    | S fuel' =>
      let limit := Nat.min maxHeadersProcess (length headers) in
      firstn limit headers :: chunksOf fuel' (skipn limit headers)
    end
  end.

Section Chunks.

Context {C Q : Type} {LC : LightChain C} {BC : BlockChain C} {QU : Queue Q}.

(** The loop body, chunk after chunk. *)
Fixpoint runChunks (mode : SyncMode) (pivot : Z) (st : procState C Q)
    (chunks : list (list Header)) (obs : list chunkObs) : stepResult (procState C Q) :=
  match chunks with
  | [] => Continue st
  | chunk :: chunks' =>
    match processChunk mode pivot st chunk (hd noCancel obs) with
    | Continue st' => runChunks mode pivot st' chunks' (tl obs)
    | other => other
    end
  end.

Lemma processChunks_runChunks (fuel : nat) (mode : SyncMode) (pivot : Z) :
  forall (st : procState C Q) headers obs,
    processChunks fuel mode pivot st headers obs =
    runChunks mode pivot st (chunksOf fuel headers) obs.
Proof.
  induction fuel as [|fuel IH]; intros st headers obs;
    destruct headers as [|h headers]; cbn [processChunks chunksOf runChunks];
    try reflexivity.
  destruct (processChunk mode pivot st _ (hd noCancel obs)); try reflexivity.
  apply IH.
Qed.

Lemma chunksOf_whole (fuel : nat) :
  forall headers,
    (length headers <= fuel)%nat ->
    concat (chunksOf fuel headers) = headers /\
    Forall (fun chunk => (1 <= length chunk <= maxHeadersProcess)%nat)
           (chunksOf fuel headers).
Proof.
  induction fuel as [|fuel IH]; intros headers Hlen;
    destruct headers as [|h headers]; cbn [chunksOf concat];
    try (split; [reflexivity | constructor]).
  - cbn in Hlen. lia.
  - set (limit := Nat.min maxHeadersProcess (length (h :: headers))).
    assert (Hlimit : (1 <= limit <= maxHeadersProcess)%nat /\
                     (limit <= length (h :: headers))%nat).
    { subst limit. unfold maxHeadersProcess. cbn [length]. lia. }
    assert (Hrest : (length (skipn limit (h :: headers)) <= fuel)%nat).
    { rewrite length_skipn. cbn [length] in *. lia. }
    destruct (IH _ Hrest) as [Hc Hf]. split.
    + rewrite Hc. apply firstn_skipn.
    + constructor; [|exact Hf]. rewrite length_firstn. lia.
Qed.

(** The loop of [processHeaders] over a batch works through the batch
    chunk by chunk: the chunks are the batch, in order and whole, and
    each holds at least one and at most [maxHeadersProcess] headers, so
    neither [InsertHeaderChain] nor [Schedule] is ever given an empty
    chunk or more than 2048 headers. *)
Theorem processChunks_covers_batch (mode : SyncMode) (pivot : Z) (st : procState C Q)
    (headers : list Header) (obs : list chunkObs) :
  processChunks (length headers) mode pivot st headers obs =
    runChunks mode pivot st (chunksOf (length headers) headers) obs /\
  concat (chunksOf (length headers) headers) = headers /\
  Forall (fun chunk => (1 <= length chunk <= maxHeadersProcess)%nat)
         (chunksOf (length headers) headers).
Proof.
  split; [apply processChunks_runChunks|].
  apply chunksOf_whole. lia.
Qed.

(** In full sync the processor leaves the header chain and the rollback
    list alone. *)
Definition untouched (st st' : procState C Q) : Prop :=
  chain st' = chain st /\ rollback st' = rollback st.

Lemma processChunk_full (pivot : Z) (st : procState C Q) (chunk : list Header)
    (o : chunkObs) :
  match processChunk FullSync pivot st chunk o with
  | Continue st' => untouched st st'
  | Return _ st' => untouched st st'
  | Panic => False
  end.
Proof.
  unfold processChunk, untouched. destruct (cancelPoll o); [split; reflexivity|].
  cbn [headerOnly withContent]. unfold scheduleChunk.
  destruct (queueFull (queue st) && cancelStalled o); [split; reflexivity|].
  destruct (Schedule (queue st) chunk (procOrigin st)) as [q' inserts].
  destruct (inserts =? length chunk)%nat; cbn; split; reflexivity.
Qed.

Lemma processChunks_full (fuel : nat) (pivot : Z) :
  forall (st : procState C Q) headers obs,
    match processChunks fuel FullSync pivot st headers obs with
    | Continue st' => untouched st st'
    | Return _ st' => untouched st st'
    | Panic => False
    end.
Proof.
  induction fuel as [|fuel IH]; intros st headers obs;
    destruct headers as [|h headers]; cbn [processChunks];
    try (split; reflexivity).
  match goal with |- context [processChunk FullSync pivot st ?ch ?o] =>
    pose proof (processChunk_full pivot st ch o) as HC;
    destruct (processChunk FullSync pivot st ch o) as [st1|err st1|]
  end; [|exact HC|exact HC].
  match goal with |- context [processChunks fuel FullSync pivot st1 ?hs ?o] =>
    pose proof (IH st1 hs o) as HI;
    destruct (processChunks fuel FullSync pivot st1 hs o) as [st2|err st2|]
  end; try contradiction;
    destruct HC as [H1 H2], HI as [H3 H4]; split; congruence.
Qed.

Lemma processLoop_full (evs : list procEvent) (pivot td : Z) :
  forall st : procState C Q,
    rollback st = [] ->
    match processLoop evs FullSync pivot td st with
    | Some (Return _ st') => chain st' = chain st /\ rollback st' = []
    | Some _ => False
    | None => True
    end.
Proof.
  induction evs as [|ev evs IH]; intros st Hrb; cbn [processLoop]; [exact I|].
  destruct ev as [|headers obs]; [split; [reflexivity | exact Hrb]|].
  destruct headers as [|h headers].
  - unfold finishStream. destruct (_ && _ && _); [split; [reflexivity | exact Hrb]|].
    cbn [headerOnly andb]. split; reflexivity.
  - match goal with |- context [processChunks ?f FullSync pivot ?s ?hs ?o] =>
      pose proof (processChunks_full f pivot s hs o) as HC;
      destruct (processChunks f FullSync pivot s hs o) as [st2|err st2|]
    end; try contradiction.
    + destruct HC as [H1 H2]. cbn [chain rollback] in H1, H2.
      match goal with |- context [processLoop evs FullSync pivot td ?s] =>
        pose proof (IH s) as HI; cbn [chain rollback] in HI;
        destruct (processLoop evs FullSync pivot td s) as [[st3|err st3|]|]
      end; try exact I.
      * apply HI. congruence.
      * rewrite <- H1. apply HI. congruence.
      * apply HI. congruence.
    + destruct HC as [H1 H2]. cbn [chain rollback] in H1, H2. split; congruence.
Qed.

(** In full sync [processHeaders] never calls [Rollback] and never
    changes the header chain, however it ends; and it does not panic. *)
Theorem processHeaders_full_sync (evs : list procEvent) (c : C) (q : Q)
    (height0 origin pivot td : Z) :
  match processHeaders evs FullSync c q height0 origin pivot td with
  | Returned r => retChain r = c /\ rolledBack r = None
  | Panicked => False
  | Blocked => True
  end.
Proof.
  unfold processHeaders.
  pose proof (processLoop_full evs pivot td (mkProc c q [] origin false height0) eq_refl)
    as HL.
  destruct (processLoop evs FullSync pivot td (mkProc c q [] origin false height0))
    as [[st|err st|]|]; try contradiction; try exact I.
  destruct HL as [Hc Hr]. unfold deferredRollback. rewrite Hr. cbn.
  split; [exact Hc | reflexivity].
Qed.

End Chunks.

Example chunksOf_runs :
  map (@length Header) (chunksOf 5000 (ListChain.canonRange 1 5000)) = [2048; 2048; 904]%nat.
Proof. vm_compute. reflexivity. Qed.

(** *** The round trip time and the confidence in it *)

(** [requestRTT]: nine tenths of the estimate, on [time.Duration], which
    is an int64. *)
Definition requestRTT (rttEstimate : Z) : Z :=
  Z.quot (int64 (int64 rttEstimate * 9)) 10.

(** The confidence after a round of [qosTuner]: half of what is missing
    to 1000000 is added. *)
Definition tuneConfidence (conf : Z) : Z :=
  uint64 (conf + uint64 (1000000 - conf) / 2).

(** [requestRTT] is nine tenths of the estimate, rounded down, and so
    never above the estimate, as long as nine times the estimate is an
    int64. *)
Theorem requestRTT_bounds (rttEstimate : Z) :
  0 <= rttEstimate -> 9 * rttEstimate < 2 ^ 63 ->
  requestRTT rttEstimate = rttEstimate * 9 / 10 /\
  0 <= requestRTT rttEstimate <= rttEstimate /\
  9 * rttEstimate < 10 * (requestRTT rttEstimate + 1).
Proof.
  intros H0 H9. unfold requestRTT.
  rewrite (int64_small rttEstimate) by lia.
  rewrite int64_small by lia.
  rewrite Z.quot_div_nonneg by lia.
  assert (Hm : 10 * (rttEstimate * 9 / 10) <= rttEstimate * 9)
    by (apply Z.mul_div_le; lia).
  assert (Hlt : rttEstimate * 9 < 10 * (rttEstimate * 9 / 10 + 1)).
  { pose proof (Z.mod_pos_bound (rttEstimate * 9) 10 ltac:(lia)) as Hb.
    pose proof (Z.div_mod (rttEstimate * 9) 10 ltac:(lia)) as Hd. lia. }
  assert (Hp : 0 <= rttEstimate * 9 / 10) by (apply Z.div_pos; lia).
  repeat split; lia.
Qed.

Lemma requestRTT_bounds_witness : requestRTT 20000000000 = 20000000000 * 9 / 10.
Proof. apply (requestRTT_bounds 20000000000); lia. Defined.

Lemma tuneConfidence_step (conf : Z) :
  0 <= conf <= 1000000 ->
  tuneConfidence conf = conf + (1000000 - conf) / 2 /\
  conf <= tuneConfidence conf <= 1000000 /\
  2 * (1000000 - tuneConfidence conf) <= 1000000 - conf + 1.
Proof.
  intros Hc. unfold tuneConfidence.
  rewrite (uint64_small (1000000 - conf)) by (unfold in_uint64; lia).
  assert (Hp : 0 <= (1000000 - conf) / 2) by (apply Z.div_pos; lia).
  assert (Hm : 2 * ((1000000 - conf) / 2) <= 1000000 - conf) by (apply Z.mul_div_le; lia).
  assert (Hlt : 1000000 - conf < 2 * ((1000000 - conf) / 2 + 1)).
  { pose proof (Z.mod_pos_bound (1000000 - conf) 2 ltac:(lia)) as Hb.
    pose proof (Z.div_mod (1000000 - conf) 2 ltac:(lia)) as Hd. lia. }
  rewrite uint64_small by (unfold in_uint64; lia).
  repeat split; lia.
Qed.

Lemma tuneConfidence_iter (k : nat) :
  forall conf,
    0 <= conf <= 1000000 -> 1000000 - conf <= 2 ^ Z.of_nat k ->
    999999 <= Nat.iter k tuneConfidence conf <= 1000000.
Proof.
  induction k as [|k IH]; intros conf Hc Hgap.
  - change (Nat.iter 0 tuneConfidence conf) with conf.
    change (2 ^ Z.of_nat 0) with 1 in Hgap. lia.
  - rewrite Nat.iter_succ_r.
    destruct (tuneConfidence_step conf Hc) as (_ & Hr & Hhalf).
    apply IH; [lia|].
    rewrite Nat2Z.inj_succ, Z.pow_succ_r in Hgap by lia.
    assert (0 < 2 ^ Z.of_nat k) by (apply Z.pow_pos_nonneg; lia). lia.
Qed.

(** A round of [qosTuner] never lowers the confidence and never takes it
    above 1000000; it halves what is missing, rounding the gain down, so
    a confidence of 999999 stays there. From any confidence, 20 rounds
    bring it to 999999 at least. *)
Theorem tuneConfidence_rises (conf : Z) :
  0 <= conf <= 1000000 ->
  tuneConfidence conf = conf + (1000000 - conf) / 2 /\
  conf <= tuneConfidence conf <= 1000000 /\
  (tuneConfidence conf = conf <-> 999999 <= conf) /\
  999999 <= Nat.iter 20 tuneConfidence conf <= 1000000.
Proof.
  intros Hc. destruct (tuneConfidence_step conf Hc) as (Heq & Hr & Hhalf).
  split; [exact Heq|]. split; [exact Hr|]. split.
  - rewrite Heq. split; intros H.
    + assert (Hz : (1000000 - conf) / 2 = 0) by lia.
      apply Z.div_small_iff in Hz; lia.
    + assert (Hz : (1000000 - conf) / 2 = 0) by (apply Z.div_small; lia). lia.
  - apply tuneConfidence_iter; [exact Hc|].
    change (2 ^ Z.of_nat 20) with 1048576. lia.
Qed.

Lemma tuneConfidence_rises_witness : tuneConfidence 100000 = 100000 + (1000000 - 100000) / 2.
Proof. apply (tuneConfidence_rises 100000). lia. Defined.

End Downloader.
